(** * Feature inversion (librosa/feature/inverse.py)

    A shallow embedding of the four public functions of the module,
    [mel_to_stft], [mel_to_audio], [mfcc_to_mel] and [mfcc_to_audio], and
    the properties of them that the specification states.

    Conventions of the embedding.

    - Array entries and Python floats are idealised as real numbers: there
      is no rounding, no infinity and no NaN.  An [ndarray] is a dtype tag,
      a shape and the row-major list of its entries.  Only where a property
      separates a small positive entry from zero is the storage of an entry
      as a binary64 number written out (section "Storage in binary64").
    - Arrays live in a store ([heap]): a Python name holds a reference
      ([loc]) to a buffer, and [np.power(..., out=inverse)] overwrites the
      buffer it is given.
    - A Python call either returns a value or raises; the store survives the
      exception.  [Py A] is the state-and-exception monad over [heap].
    - Keyword arguments are dictionaries from names to Python values; the
      binding of a dictionary to a [def] signature (defaults, the rest going
      to [**kwargs], the [TypeError]s of a malformed call) is written out.
    - The functions the module imports ([filters.mel], [util.nnls],
      [np.power], [core.griffinlim], [scipy.fftpack.idct]) are parameters of
      the development; what is assumed of them is stated as a contract
      taken from the specification's external interfaces. *)

From Stdlib Require Import Reals Lra ZArith.
From stdpp Require Import gmap strings list.

Open Scope Z_scope.

(** ** Data model *)

Inductive dtype := float32 | float64.

Record ndarray := NdArray {
  arr_dtype : dtype;
  arr_shape : list Z;
  arr_data : list R
}.

(** The Python values that travel through keyword arguments: built-in
    values, a numpy dtype and a callable reference.  A [PFloat] is a finite
    Python [float]; numpy scalars such as [np.float64(0.0)], whose
    arithmetic returns infinities where Python's raises, are not among
    them. *)
Inductive pyval :=
| PNone
| PBool (b : bool)
| PInt (z : Z)
| PFloat (r : R)
| PStr (s : string)
| PDtype (d : dtype)
| PCallable (f : ndarray → R).

(** Exceptions.  [ParameterError] is librosa's invalid-parameter error. *)
Inductive exn :=
| ParameterError
| ZeroDivisionError
| OverflowError
| TypeError
| IndexError
| DanglingReference
| OtherError (name : string).

Inductive res (A : Type) :=
| Ok (a : A)
| Raise (e : exn).
Arguments Ok {A} a.
Arguments Raise {A} e.

Definition loc := nat.
Definition heap := list ndarray.

(** ** The state-and-exception monad *)

Definition Py (A : Type) : Type := heap → heap * res A.

Definition ret {A} (a : A) : Py A := λ h, (h, Ok a).

Definition raise {A} (e : exn) : Py A := λ h, (h, Raise e).

Definition bind {A B} (m : Py A) (k : A → Py B) : Py B :=
  λ h, match m h with
       | (h', Ok a) => k a h'
       | (h', Raise e) => (h', Raise e)
       end.

Notation "x <- m ;; k" := (bind m (λ x, k))
  (at level 100, m at next level, right associativity).

Definition lift {A} (r : res A) : Py A :=
  match r with
  | Ok a => ret a
  | Raise e => raise e
  end.

(** Reading the buffer behind a reference. *)
Definition load (l : loc) : Py ndarray :=
  λ h, match h !! l with
       | Some a => (h, Ok a)
       | None => (h, Raise DanglingReference)
       end.

(** A new buffer, owned by whoever receives the reference. *)
Definition alloc (a : ndarray) : Py loc :=
  λ h, (h ++ [a], Ok (length h)).

(** Overwriting a buffer in place. *)
Definition store (l : loc) (a : ndarray) : Py unit :=
  λ h, (<[l := a]> h, Ok tt).

(** ** Python call semantics *)

(** A named parameter takes the caller's keyword when there is one and its
    default from the [def] line otherwise. *)
Definition param (kw : gmap string pyval) (name : string) (dflt : pyval) : pyval :=
  default dflt (kw !! name).

(** What is left for [**kwargs] once the named parameters are bound. *)
Definition var_keywords (named : list string) (kw : gmap string pyval)
  : gmap string pyval :=
  filter (λ kv, kv.1 ∉ named) kw.

(** A parameter already bound by position cannot be given again by keyword:
    [TypeError: got multiple values for argument]. *)
Definition bind_positional (name : string) (kw : gmap string pyval) : Py unit :=
  if decide (is_Some (kw !! name)) then raise TypeError else ret tt.

(** A [def] without [**kwargs] refuses every keyword it does not name:
    [TypeError: got an unexpected keyword argument]. *)
Definition no_var_keywords (named : list string) (kw : gmap string pyval) : Py unit :=
  if decide (dom kw ⊆ list_to_set (C := gset string) named) then ret tt
  else raise TypeError.

(** The keyword dictionary of a call [f(..., k1=v1, ..., **star)]: a name
    given both ways is [TypeError: got multiple values for keyword argument],
    raised before the callee runs. *)
Definition keywords (explicit : list (string * pyval)) (star : gmap string pyval)
  : res (gmap string pyval) :=
  if decide (Exists (λ kv, is_Some (star !! kv.1)) explicit) then Raise TypeError
  else Ok (list_to_map explicit ∪ star).

(** [a.shape[i]] *)
Definition shape_at (a : ndarray) (i : nat) : res Z :=
  match arr_shape a !! i with
  | Some n => Ok n
  | None => Raise IndexError
  end.

#[global] Instance R_eq_dec : EqDecision R := Req_dec_T.

(** The first integer that Python refuses to convert to a [float]: the
    conversion rounds to the nearest float, ties to even, and raises
    [OverflowError] when that would pass the largest float,
    [2^1024 - 2^971], that is from the midpoint [2^1024 - 2^970] on. *)
Definition float_int_bound : Z := 2 ^ 1024 - 2 ^ 970.
Arguments float_int_bound : simpl never.

(** [1./power]: true division of the float literal [1.] by a built-in
    Python number.  An [int] is first converted to a [float], which raises
    [OverflowError] when it is out of range; a zero divisor of any numeric
    type raises [ZeroDivisionError]; a value that is not a number raises
    [TypeError]. *)
Definition py_one_over (power : pyval) : res R :=
  match power with
  | PFloat r => if decide (r = 0%R) then Raise ZeroDivisionError else Ok (1 / r)%R
  | PInt z =>
      if decide (float_int_bound ≤ Z.abs z) then Raise OverflowError
      else if decide (z = 0) then Raise ZeroDivisionError
      else Ok (1 / IZR z)%R
  | PBool b => if b then Ok 1%R else Raise ZeroDivisionError
  | _ => Raise TypeError
  end.

(** Element-wise application, keeping dtype and shape. *)
Definition arr_map (f : R → R) (a : ndarray) : ndarray :=
  {| arr_dtype := arr_dtype a; arr_shape := arr_shape a;
     arr_data := f <$> arr_data a |}.

Definition nonneg (a : ndarray) : Prop := Forall (λ x, 0 <= x)%R (arr_data a).
Definition positive (a : ndarray) : Prop := Forall (λ x, 0 < x)%R (arr_data a).

(** ** Collaborators *)

(** Modelled from the spec: a collaborator computes its result from the
    values of its arguments, changes none of them, and hands back a buffer
    that nobody else holds (sections 5 and 9: "the solver call returns an
    exclusively-owned buffer").  So a collaborator is a function on array
    values, and calling it allocates its result. *)
Definition call (r : res ndarray) : Py loc :=
  a <- lift r;; alloc a.

(** Modelled from the spec: the reference of [core.db_to_power], "a scalar
    or a function of the input matrix" (section 6). *)
Definition ref_value (ref : pyval) (S_db : ndarray) : res R :=
  match ref with
  | PFloat r => Ok r
  | PInt z => Ok (IZR z)
  | PBool b => Ok (if b then 1 else 0)%R
  | PCallable f => Ok (f S_db)
  | _ => Raise TypeError
  end.

(** Modelled from the spec: [core.db_to_power] is imported by the module but
    is not among its sources.  Section 6: "computing
    [reference * 10^(log_power/10)] elementwise, where [reference] may be a
    scalar or a function of the input matrix". *)
Definition db_to_power (S_db : ndarray) (ref : pyval) : res ndarray :=
  match ref_value ref S_db with
  | Ok r => Ok (arr_map (λ x, r * Rpower 10 (x / 10))%R S_db)
  | Raise e => Raise e
  end.

Definition mel_to_stft_params : list string := ["M"; "sr"; "n_fft"; "power"].

Definition mel_to_audio_params : list string :=
  ["M"; "sr"; "n_fft"; "hop_length"; "win_length"; "window"; "center";
   "pad_mode"; "power"; "n_iter"; "length"; "dtype"].

Definition mfcc_to_mel_params : list string :=
  ["mfcc"; "n_mels"; "dct_type"; "norm"; "ref"].

Section inverse.

(** [filters.mel(sr, n_fft, **kw)] *)
Variable filters_mel : pyval → pyval → gmap string pyval → res ndarray.
(** [util.nnls(A, B)] *)
Variable nnls : ndarray → ndarray → res ndarray.
(** The scalar kernel of the ufunc [np.power]. *)
Variable np_power : R → R → R.
(** [core.griffinlim(S, **kw)] *)
Variable griffinlim : ndarray → gmap string pyval → res ndarray.
(** [scipy.fftpack.idct(x, axis=0, type=.., norm=.., n=..)] *)
Variable idct : ndarray → pyval → pyval → pyval → res ndarray.

(** [np.power(inverse, e, out=inverse)]: every entry of the buffer is
    replaced by its power, and the same reference is returned. *)
Definition np_power_inplace (inverse : loc) (e : R) : Py loc :=
  a <- load inverse;;
  _ <- store inverse (arr_map (λ x, np_power x e) a);;
  ret inverse.

(** [def mel_to_stft(M, sr=22050, n_fft=2048, power=2.0, **kwargs)] *)
Definition mel_to_stft (M : loc) (kw : gmap string pyval) : Py loc :=
  _ <- bind_positional "M" kw;;
  let sr := param kw "sr" (PInt 22050) in
  let n_fft := param kw "n_fft" (PInt 2048) in
  let power := param kw "power" (PFloat 2) in
  let kwargs := var_keywords mel_to_stft_params kw in
  (* mel_basis = filters.mel(sr, n_fft, n_mels=M.shape[0], dtype=M.dtype, **kwargs) *)
  Mv <- load M;;
  n_mels <- lift (shape_at Mv 0);;
  kw_mel <- lift (keywords [("n_mels", PInt n_mels);
                            ("dtype", PDtype (arr_dtype Mv))] kwargs);;
  mel_basis <- call (filters_mel sr n_fft kw_mel);;
  (* inverse = nnls(mel_basis, M) *)
  A <- load mel_basis;;
  B <- load M;;
  inverse <- call (nnls A B);;
  (* return np.power(inverse, 1./power, out=inverse) *)
  e <- lift (py_one_over power);;
  np_power_inplace inverse e.

(** [def mel_to_audio(M, sr=22050, n_fft=2048, hop_length=512,
      win_length=None, window='hann', center=True, pad_mode='reflect',
      power=2.0, n_iter=32, length=None, dtype=np.float32, **kwargs)] *)
Definition mel_to_audio (M : loc) (kw : gmap string pyval) : Py loc :=
  _ <- bind_positional "M" kw;;
  let sr := param kw "sr" (PInt 22050) in
  let n_fft := param kw "n_fft" (PInt 2048) in
  let hop_length := param kw "hop_length" (PInt 512) in
  let win_length := param kw "win_length" PNone in
  let window := param kw "window" (PStr "hann") in
  let center := param kw "center" (PBool true) in
  let pad_mode := param kw "pad_mode" (PStr "reflect") in
  let power := param kw "power" (PFloat 2) in
  let n_iter := param kw "n_iter" (PInt 32) in
  let length := param kw "length" PNone in
  let dtype := param kw "dtype" (PDtype float32) in
  let kwargs := var_keywords mel_to_audio_params kw in
  (* stft = mel_to_stft(M, sr=sr, n_fft=n_fft, power=power, **kwargs) *)
  kw_stft <- lift (keywords [("sr", sr); ("n_fft", n_fft); ("power", power)]
                            kwargs);;
  stft <- mel_to_stft M kw_stft;;
  (* return griffinlim(stft, n_iter=.., hop_length=.., win_length=..,
                       window=.., center=.., dtype=.., length=.., pad_mode=..) *)
  magnitudes <- load stft;;
  call (griffinlim magnitudes (list_to_map
          [("n_iter", n_iter); ("hop_length", hop_length);
           ("win_length", win_length); ("window", window);
           ("center", center); ("dtype", dtype); ("length", length);
           ("pad_mode", pad_mode)])).

(** [def mfcc_to_mel(mfcc, n_mels=128, dct_type=2, norm='ortho', ref=1.0)] *)
Definition mfcc_to_mel (mfcc : loc) (kw : gmap string pyval) : Py loc :=
  _ <- bind_positional "mfcc" kw;;
  _ <- no_var_keywords mfcc_to_mel_params kw;;
  let n_mels := param kw "n_mels" (PInt 128) in
  let dct_type := param kw "dct_type" (PInt 2) in
  let norm := param kw "norm" (PStr "ortho") in
  let ref := param kw "ref" (PFloat 1) in
  (* logmel = scipy.fftpack.idct(mfcc, axis=0, type=dct_type, norm=norm, n=n_mels) *)
  x <- load mfcc;;
  logmel <- call (idct x dct_type norm n_mels);;
  (* return db_to_power(logmel, ref=ref) *)
  S_db <- load logmel;;
  call (db_to_power S_db ref).

(** [def mfcc_to_audio(mfcc, n_mels=128, dct_type=2, norm='ortho', ref=1.0,
      **kwargs)] *)
Definition mfcc_to_audio (mfcc : loc) (kw : gmap string pyval) : Py loc :=
  _ <- bind_positional "mfcc" kw;;
  let n_mels := param kw "n_mels" (PInt 128) in
  let dct_type := param kw "dct_type" (PInt 2) in
  let norm := param kw "norm" (PStr "ortho") in
  let ref := param kw "ref" (PFloat 1) in
  let kwargs := var_keywords mfcc_to_mel_params kw in
  (* mel_spec = mfcc_to_mel(mfcc, n_mels=n_mels, dct_type=dct_type, norm=norm, ref=ref) *)
  mel_spec <- mfcc_to_mel mfcc (list_to_map
                [("n_mels", n_mels); ("dct_type", dct_type);
                 ("norm", norm); ("ref", ref)]);;
  (* return mel_to_audio(mel_spec, **kwargs) *)
  mel_to_audio mel_spec kwargs.

End inverse.

(** ** Storage in binary64

    Where a property separates a small positive number from zero, the
    entries of an array are taken as what numpy stores: the nearest
    binary64 number.  Overflow to infinity is not represented. *)

(** The nearest integer, ties to even. *)
Definition round_half_even (y : R) : Z :=
  let n := Int_part y in
  if Rlt_dec (y - IZR n) (1 / 2) then n
  else if Rlt_dec (1 / 2) (y - IZR n) then n + 1
  else if Z.even n then n else n + 1.

(** The exponent of the spacing of binary64 numbers around [x]: [2^-1074]
    below the least normal number [2^-1022], and 52 binary places below the
    leading bit of [x] from there on. *)
Definition binary64_exponent (x : R) : Z :=
  if Rlt_dec (Rabs x) (powerRZ 2 (-1022)) then -1074
  else Int_part (ln (Rabs x) / ln 2) - 52.

(** The binary64 number nearest to [x], ties to even. *)
Definition round_binary64 (x : R) : R :=
  (IZR (round_half_even (x / powerRZ 2 (binary64_exponent x)))
   * powerRZ 2 (binary64_exponent x))%R.

(** Modelled from the spec: [core.db_to_power] on a float array.  Each entry
    is the value of section 6, [reference * 10^(log_power/10)], as the
    binary64 number that is stored for it. *)
Definition db_to_power_binary64 (S_db : ndarray) (ref : pyval) : res ndarray :=
  match ref_value ref S_db with
  | Ok r => Ok (arr_map (λ x, round_binary64 (r * Rpower 10 (x / 10)))%R S_db)
  | Raise e => Raise e
  end.

(** [def mfcc_to_mel(mfcc, n_mels=128, dct_type=2, norm='ortho', ref=1.0)],
    with the decibel conversion storing binary64 numbers. *)
Definition mfcc_to_mel_binary64
    (idct : ndarray → pyval → pyval → pyval → res ndarray)
    (mfcc : loc) (kw : gmap string pyval) : Py loc :=
  _ <- bind_positional "mfcc" kw;;
  _ <- no_var_keywords mfcc_to_mel_params kw;;
  let n_mels := param kw "n_mels" (PInt 128) in
  let dct_type := param kw "dct_type" (PInt 2) in
  let norm := param kw "norm" (PStr "ortho") in
  let ref := param kw "ref" (PFloat 1) in
  (* logmel = scipy.fftpack.idct(mfcc, axis=0, type=dct_type, norm=norm, n=n_mels) *)
  x <- load mfcc;;
  logmel <- call (idct x dct_type norm n_mels);;
  (* return db_to_power(logmel, ref=ref) *)
  S_db <- load logmel;;
  call (db_to_power_binary64 S_db ref).

(** ** What a caller observes *)

(** The array behind the reference a call returned, or the exception. *)
Definition value_of (m : Py loc) (h : heap) : res ndarray :=
  match m h with
  | (h', Ok l) =>
      match h' !! l with
      | Some a => Ok a
      | None => Raise DanglingReference
      end
  | (_, Raise e) => Raise e
  end.

(** [power > 0] for a built-in Python number that is a [float] or converts
    to one: an [int] from [float_int_bound] on has no float value. *)
Definition py_positive (v : pyval) : Prop :=
  match v with
  | PFloat r => (0 < r)%R
  | PInt z => 0 < z < float_int_bound
  | PBool b => b = true
  | _ => False
  end.

(** [power == 0] for a Python number: [0], [0.0] and [False]. *)
Definition py_zero (v : pyval) : Prop :=
  match v with
  | PFloat r => r = 0%R
  | PInt z => z = 0
  | PBool b => b = false
  | _ => False
  end.

(** ** Contracts of the collaborators (specification, sections 4 and 6) *)

(** Mel basis constructor: "non-negative matrix
    [mel_band_count × (fft_size//2+1)]" of the requested numeric type. *)
Definition mel_basis_contract
    (filters_mel : pyval → pyval → gmap string pyval → res ndarray) : Prop :=
  ∀ sr n_fft n_mels d kw B,
    kw !! "n_mels" = Some (PInt n_mels) →
    kw !! "dtype" = Some (PDtype d) →
    filters_mel sr (PInt n_fft) kw = Ok B →
    arr_shape B = [n_mels; n_fft / 2 + 1] ∧ arr_dtype B = d ∧ nonneg B.

(** Solver: for "a design matrix and a target matrix sharing the design
    matrix's row count", a solution it returns has "shape (design matrix
    columns × target columns)".  The solver may also raise. *)
Definition nnls_shape_contract (nnls : ndarray → ndarray → res ndarray) : Prop :=
  ∀ A B X rows ca cb,
    arr_shape A = [rows; ca] →
    arr_shape B = [rows; cb] →
    nnls A B = Ok X →
    arr_shape X = [ca; cb].

(** Solver: "it must never return negative entries". *)
Definition nnls_nonneg (nnls : ndarray → ndarray → res ndarray) : Prop :=
  ∀ A B X, nnls A B = Ok X → nonneg X.

(** A non-negative base raised to a positive exponent is non-negative. *)
Definition np_power_contract (np_power : R → R → R) : Prop :=
  ∀ x e, (0 <= x)%R → (0 < e)%R → (0 <= np_power x e)%R.

(** Inverse DCT along axis 0 with [n] output coefficients: the frame count
    is kept and the coefficient axis has length [n]. *)
Definition idct_shape_contract
    (idct : ndarray → pyval → pyval → pyval → res ndarray) : Prop :=
  ∀ x type norm n coeffs frames y,
    arr_shape x = [coeffs; frames] →
    idct x type norm (PInt n) = Ok y →
    arr_shape y = [n; frames].

(** Inverse DCT: "requesting normalization with type 1 is an
    invalid-parameter condition". *)
Definition idct_rejects_ortho_type1
    (idct : ndarray → pyval → pyval → pyval → res ndarray) : Prop :=
  ∀ x n, idct x (PInt 1) (PStr "ortho") n = Raise ParameterError.

(** ** The reference definitions of the specification *)

Definition res_bind {A B} (r : res A) (k : A → res B) : res B :=
  match r with
  | Ok a => k a
  | Raise e => Raise e
  end.

Section reference.

Variable filters_mel : pyval → pyval → gmap string pyval → res ndarray.
Variable nnls : ndarray → ndarray → res ndarray.
Variable np_power : R → R → R.
Variable idct : ndarray → pyval → pyval → pyval → res ndarray.

(** Section 4.1, steps a to c, on array values: a basis with as many rows
    as [M] has bands and with the numeric type of [M]; the non-negative
    least-squares solve; the inverse exponent on every entry. *)
Definition mel_to_stft_spec (M : ndarray) (bands : Z) (sr n_fft : pyval)
    (power : R) (options : gmap string pyval) : res ndarray :=
  res_bind (filters_mel sr n_fft
              (<["n_mels" := PInt bands]>
                 (<["dtype" := PDtype (arr_dtype M)]> options)))
    (λ mel_basis,
       res_bind (nnls mel_basis M)
         (λ X, Ok (arr_map (λ x, np_power x (1 / power)%R) X))).

(** Section 4.3, steps a and b, on array values: the inverse DCT with
    [n_mels] output coefficients, then [ref * 10^(logmel/10)] on every
    entry, [ref] being a number or a callable applied to the log-power
    array. *)
Definition reference_power (ref : pyval) (logmel : ndarray) : res R :=
  match ref with
  | PCallable f => Ok (f logmel)
  | PFloat r => Ok r
  | PInt z => Ok (IZR z)
  | PBool b => Ok (if b then 1 else 0)%R
  | _ => Raise TypeError
  end.

Definition mfcc_to_mel_spec (mfcc : ndarray) (n_mels dct_type norm ref : pyval)
    : res ndarray :=
  res_bind (idct mfcc dct_type norm n_mels)
    (λ logmel,
       res_bind (reference_power ref logmel)
         (λ r, Ok {| arr_dtype := arr_dtype logmel;
                     arr_shape := arr_shape logmel;
                     arr_data := map (λ x, r * Rpower 10 (x / 10))%R
                                     (arr_data logmel) |})).

End reference.

(** ** Instances of the collaborators

    Small total functions that meet the contracts above; the properties
    below are run on them at concrete inputs. *)

Definition constant_array (d : dtype) (shape : list Z) (v : R) : ndarray :=
  {| arr_dtype := d; arr_shape := shape;
     arr_data := replicate (Z.to_nat (foldr Z.mul 1 shape)) v |}.

Definition ones_filters_mel (sr n_fft : pyval) (kw : gmap string pyval)
    : res ndarray :=
  match n_fft, kw !! "n_mels", kw !! "dtype" with
  | PInt F, Some (PInt m), Some (PDtype d) =>
      Ok (constant_array d [m; F / 2 + 1] 1%R)
  | _, _, _ => Raise TypeError
  end.

Definition zero_nnls (A B : ndarray) : res ndarray :=
  match arr_shape A, arr_shape B with
  | [ra; ca], [rb; cb] =>
      if decide (ra = rb) then Ok (constant_array (arr_dtype A) [ca; cb] 0%R)
      else Raise ParameterError
  | _, _ => Raise ParameterError
  end.

Definition real_power (x e : R) : R :=
  if Rlt_dec 0 x then Rpower x e else 0%R.

(** A phase reconstructor that answers with the hop length it was given. *)
Definition echo_hop_griffinlim (S : ndarray) (kw : gmap string pyval)
    : res ndarray :=
  match kw !! "hop_length" with
  | Some (PInt hop) => Ok {| arr_dtype := float32; arr_shape := [1];
                             arr_data := [IZR hop] |}
  | _ => Raise ParameterError
  end.

Definition zero_idct (x : ndarray) (type norm n : pyval) : res ndarray :=
  match type, norm with
  | PInt 1, PStr "ortho" => Raise ParameterError
  | _, _ =>
      match n, arr_shape x with
      | PInt k, [_; frames] => Ok (constant_array (arr_dtype x) [k; frames] 0%R)
      | _, _ => Raise TypeError
      end
  end.

Definition M1 : ndarray :=
  {| arr_dtype := float64; arr_shape := [1; 1]; arr_data := [1%R] |}.

(** The orthonormal inverse DCT of type 2 of one coefficient into one band
    is the identity. *)
Definition one_band_idct (x : ndarray) (type norm n : pyval) : res ndarray :=
  match arr_shape x, type, norm, n with
  | [1; _], PInt 2, PStr "ortho", PInt 1 => Ok x
  | _, _, _, _ => Raise (OtherError "NotImplementedError")
  end.

(** One cepstral coefficient of -4000 in one frame. *)
Definition quiet_mfcc : ndarray :=
  {| arr_dtype := float64; arr_shape := [1; 1]; arr_data := [(-4000)%R] |}.

(** An array without axes, as [np.array(2.0)]. *)
Definition scalar_array : ndarray :=
  {| arr_dtype := float64; arr_shape := []; arr_data := [2%R] |}.

(** ** Vocabulary of the statements *)

(** The keywords of [mfcc_to_audio] that belong to the cepstral inversion. *)
Definition cepstral_params : list string := ["n_mels"; "dct_type"; "norm"; "ref"].

(** The keyword dictionaries that [mel_to_audio], called with [kw], hands to
    [mel_to_stft] and to [griffinlim]. *)
Definition stft_keywords_of (kw : gmap string pyval) : gmap string pyval :=
  <["sr" := param kw "sr" (PInt 22050)]>
    (<["n_fft" := param kw "n_fft" (PInt 2048)]>
       (<["power" := param kw "power" (PFloat 2)]>
          (var_keywords mel_to_audio_params kw))).

Definition griffinlim_keywords_of (kw : gmap string pyval) : gmap string pyval :=
  list_to_map
    [("n_iter", param kw "n_iter" (PInt 32));
     ("hop_length", param kw "hop_length" (PInt 512));
     ("win_length", param kw "win_length" PNone);
     ("window", param kw "window" (PStr "hann"));
     ("center", param kw "center" (PBool true));
     ("dtype", param kw "dtype" (PDtype float32));
     ("length", param kw "length" PNone);
     ("pad_mode", param kw "pad_mode" (PStr "reflect"))].

(** A function is pure over the store when, however the call ends, the store
    it leaves is the store it found followed by the buffers it created:
    every buffer that existed before the call, the caller's arrays among
    them, holds what it held. *)
Definition pure_over_store (f : loc → gmap string pyval → Py loc) : Prop :=
  ∀ M kw h,
    (∃ created, (f M kw h).1 = h ++ created) ∧
    (∀ l a, h !! l = Some a → (f M kw h).1 !! l = Some a).

Definition extends {A} (m : Py A) : Prop :=
  ∀ h, ∃ created, (m h).1 = h ++ created.

(** What [1./power] accepts: a built-in Python number other than zero
    which, when an [int], converts to a [float]. *)
Definition py_divisor (v : pyval) : Prop :=
  match v with
  | PFloat r => r ≠ 0%R
  | PInt z => z ≠ 0 ∧ Z.abs z < float_int_bound
  | PBool b => b = true
  | _ => False
  end.

(** The keywords of [mel_to_audio] that it hands to [griffinlim]. *)
Definition griffinlim_params : list string :=
  ["hop_length"; "win_length"; "window"; "center"; "pad_mode"; "n_iter";
   "length"; "dtype"].

(** A computation returns a new array when the reference it returns points
    into the part of the store that the computation itself appended. *)
Definition returns_new (m : Py loc) : Prop :=
  ∀ h h' l, m h = (h', Ok l) → (length h ≤ l < length h')%nat.

Definition result_is_new (f : loc → gmap string pyval → Py loc) : Prop :=
  ∀ M kw, returns_new (f M kw).

(** ** Lemmas on the call semantics and the store *)

Lemma var_keywords_lookup named (kw : gmap string pyval) k :
  var_keywords named kw !! k = if decide (k ∈ named) then None else kw !! k.
Proof.
  unfold var_keywords. case_decide as Hk.
  - apply map_lookup_filter_None. right. intros v _ Hn. by apply Hn.
  - destruct (kw !! k) as [v|] eqn:E.
    + apply map_lookup_filter_Some. done.
    + apply map_lookup_filter_None. by left.
Qed.

Lemma var_keywords_None named (kw : gmap string pyval) k :
  kw !! k = None → var_keywords named kw !! k = None.
Proof. intros H. rewrite var_keywords_lookup. by case_decide. Qed.

Lemma keywords_fresh explicit (star : gmap string pyval) :
  Forall (λ kv, star !! kv.1 = None) explicit →
  keywords explicit star = Ok (list_to_map explicit ∪ star).
Proof.
  intros H. unfold keywords. case_decide as Hex; [|done].
  apply Exists_exists in Hex as (kv & Hin & [v Hv]).
  rewrite Forall_forall in H. rewrite (H _ Hin) in Hv. done.
Qed.

Lemma keywords_clash explicit (star : gmap string pyval) k v :
  k ∈ explicit.*1 → star !! k = Some v →
  keywords explicit star = Raise TypeError.
Proof.
  intros Hin Hk. unfold keywords. case_decide as Hex; [done|].
  exfalso. apply Hex, Exists_exists.
  apply list_elem_of_fmap in Hin as ([k' v'] & -> & Hin).
  exists (k', v'). split; [done|]. simpl. eauto.
Qed.

Lemma load_alloc_new (h : heap) a : (h ++ [a]) !! length h = Some a.
Proof. by rewrite list_lookup_middle. Qed.

Lemma load_alloc_old (h : heap) a l b : h !! l = Some b → (h ++ [a]) !! l = Some b.
Proof. intros H. by apply lookup_app_l_Some. Qed.

Lemma store_new (h : heap) a b : <[length h := b]> (h ++ [a]) = h ++ [b].
Proof. rewrite insert_app_r_alt; [|lia]. by rewrite Nat.sub_diag. Qed.

Lemma float_int_bound_pos : 0 < float_int_bound.
Proof. by vm_compute. Qed.

Lemma py_one_over_positive v :
  py_positive v → ∃ e, py_one_over v = Ok e ∧ (0 < e)%R.
Proof.
  destruct v as [|[]|z|r| | |]; simpl; try done.
  - intros _. exists 1%R. split; [done|lra].
  - intros Hz. rewrite decide_False by lia. rewrite decide_False by lia.
    eexists; split; [done|].
    apply Rdiv_lt_0_compat; [lra|]. apply IZR_lt. lia.
  - intros Hr. case_decide; [lra|]. eexists; split; [done|].
    apply Rdiv_lt_0_compat; lra.
Qed.

Lemma py_one_over_zero v : py_zero v → py_one_over v = Raise ZeroDivisionError.
Proof.
  destruct v as [|[]|z|r| | |]; simpl; try done.
  - intros ->. pose proof float_int_bound_pos.
    rewrite decide_False by (simpl; lia). by rewrite decide_True.
  - intros ->. by case_decide.
Qed.

(** ** Lemmas on binary64 storage *)

Lemma Int_part_nonneg y : (0 <= y)%R → 0 ≤ Int_part y.
Proof.
  intros Hy. destruct (base_Int_part y) as [_ H2].
  assert (IZR (-1) < IZR (Int_part y))%R as H%lt_IZR by lra. lia.
Qed.

Lemma Int_part_small y : (0 <= y < 1)%R → Int_part y = 0.
Proof.
  intros [Hy0 Hy1]. destruct (base_Int_part y) as [H1 H2].
  assert (IZR (-1) < IZR (Int_part y))%R as Hlo%lt_IZR by lra.
  assert (IZR (Int_part y) < IZR 1)%R as Hhi%lt_IZR by lra. lia.
Qed.

Lemma round_half_even_nonneg y : (0 <= y)%R → 0 ≤ round_half_even y.
Proof.
  intros Hy. pose proof (Int_part_nonneg y Hy). unfold round_half_even.
  repeat destruct (Rlt_dec _ _); try lia. destruct (Z.even _); lia.
Qed.

Lemma round_half_even_small y : (0 <= y < 1 / 2)%R → round_half_even y = 0.
Proof.
  intros [Hy0 Hy1]. unfold round_half_even.
  rewrite Int_part_small by lra. destruct (Rlt_dec _ _) as [|Hn]; [done|].
  exfalso. apply Hn. simpl. lra.
Qed.

Lemma round_binary64_nonneg x : (0 <= x)%R → (0 <= round_binary64 x)%R.
Proof.
  intros Hx. unfold round_binary64.
  assert (0 < powerRZ 2 (binary64_exponent x))%R as Hs by (apply powerRZ_lt; lra).
  apply Rmult_le_pos; [|lra].
  apply (IZR_le 0), round_half_even_nonneg.
  apply Rmult_le_pos; [done|]. left. by apply Rinv_0_lt_compat.
Qed.

(** Underflow: a number below half the least positive binary64 number is
    stored as zero. *)
Lemma round_binary64_underflow x :
  (0 <= x < powerRZ 2 (-1075))%R → round_binary64 x = 0%R.
Proof.
  intros [Hx0 Hx1].
  assert (0 < powerRZ 2 (-1074))%R as Ha by (apply powerRZ_lt; lra).
  assert (powerRZ 2 (-1075) = powerRZ 2 (-1074) / 2)%R as H1075.
  { change (-1075) with (-1074 + -1). rewrite powerRZ_add by lra.
    simpl (powerRZ 2 (-1)). unfold Rdiv. by rewrite Rmult_1_r. }
  assert (powerRZ 2 (-1074) <= powerRZ 2 (-1022))%R as H1022.
  { change (-1022) with (-1074 + 52). rewrite powerRZ_add by lra.
    assert (1 <= powerRZ 2 52)%R as H52.
    { change (powerRZ 2 52) with (2 ^ Pos.to_nat 52)%R.
      apply pow_R1_Rle. lra. }
    nra. }
  unfold round_binary64, binary64_exponent.
  rewrite Rabs_pos_eq by done.
  destruct (Rlt_dec x (powerRZ 2 (-1022))) as [_|Hn]; [|exfalso; apply Hn; lra].
  rewrite round_half_even_small; [simpl; lra|].
  split.
  - apply Rmult_le_pos; [done|]. left. by apply Rinv_0_lt_compat.
  - apply (Rmult_lt_reg_r (powerRZ 2 (-1074))); [done|].
    unfold Rdiv. rewrite Rmult_assoc, Rinv_l by lra. lra.
Qed.

(** [10^-400] is below half the least positive binary64 number. *)
Lemma ten_to_minus_400_underflows :
  (0 <= 1 * Rpower 10 (-4000 / 10) < powerRZ 2 (-1075))%R.
Proof.
  replace (-4000 / 10)%R with (- INR 400)%R
    by (rewrite INR_IZR_INZ; change (Z.of_nat 400) with 400; lra).
  rewrite Rpower_Ropp, Rpower_pow, Rmult_1_l by lra.
  change (powerRZ 2 (-1075)) with (/ 2 ^ Pos.to_nat 1075)%R.
  assert (0 < 2 ^ Pos.to_nat 1075)%R as H2 by (apply pow_lt; lra).
  assert (2 ^ Pos.to_nat 1075 < 10 ^ 400)%R as Hlt.
  { rewrite !pow_IZR. apply IZR_lt. by vm_compute. }
  split.
  - left. apply Rinv_0_lt_compat. lra.
  - by apply Rinv_0_lt_contravar.
Qed.

(** ** Properties of the four functions *)

Section properties.

Variable filters_mel : pyval → pyval → gmap string pyval → res ndarray.
Variable nnls : ndarray → ndarray → res ndarray.
Variable np_power : R → R → R.
Variable griffinlim : ndarray → gmap string pyval → res ndarray.
Variable idct : ndarray → pyval → pyval → pyval → res ndarray.

(** The dictionary that [mel_to_stft] passes to [filters.mel]. *)
Lemma mel_keywords bands d (kw : gmap string pyval) :
  kw !! "n_mels" = None → kw !! "dtype" = None →
  keywords [("n_mels", PInt bands); ("dtype", PDtype d)]
           (var_keywords mel_to_stft_params kw)
  = Ok (<["n_mels" := PInt bands]>
          (<["dtype" := PDtype d]> (var_keywords mel_to_stft_params kw))).
Proof.
  intros H1 H2. rewrite keywords_fresh.
  - simpl. by rewrite <- !insert_union_l, (left_id_L ∅ (∪)).
  - repeat constructor; simpl; by apply var_keywords_None.
Qed.

Lemma mel_keywords_n_mels bands d (options : gmap string pyval) :
  <["n_mels" := PInt bands]> (<["dtype" := PDtype d]> options) !! "n_mels"
  = Some (PInt bands).
Proof. apply lookup_insert_eq. Qed.

Lemma mel_keywords_dtype bands d (options : gmap string pyval) :
  <["n_mels" := PInt bands]> (<["dtype" := PDtype d]> options) !! "dtype"
  = Some (PDtype d).
Proof. rewrite lookup_insert_ne by done. apply lookup_insert_eq. Qed.

(** A well-formed call on a matrix: every path through [mel_to_stft],
    with the store it leaves.  The basis is the first new buffer, the
    solution the second; the second is overwritten and returned unless
    [1./power] raises. *)
Lemma mel_to_stft_steps h M Mv (kw : gmap string pyval) bands dims :
  kw !! "M" = None → kw !! "n_mels" = None → kw !! "dtype" = None →
  h !! M = Some Mv →
  arr_shape Mv = bands :: dims →
  mel_to_stft filters_mel nnls np_power M kw h =
    match filters_mel (param kw "sr" (PInt 22050)) (param kw "n_fft" (PInt 2048))
            (<["n_mels" := PInt bands]>
               (<["dtype" := PDtype (arr_dtype Mv)]>
                  (var_keywords mel_to_stft_params kw))) with
    | Raise err => (h, Raise err)
    | Ok B =>
        match nnls B Mv with
        | Raise err => (h ++ [B], Raise err)
        | Ok X =>
            match py_one_over (param kw "power" (PFloat 2)) with
            | Ok e => (h ++ [B; arr_map (λ x, np_power x e) X], Ok (S (length h)))
            | Raise err => (h ++ [B; X], Raise err)
            end
        end
    end.
Proof.
  intros HM Hn Hd Hl Hs.
  unfold mel_to_stft, bind, bind_positional.
  rewrite HM. rewrite decide_False by (by intros [? ?]).
  cbn [ret]. unfold load at 1. rewrite Hl.
  unfold shape_at. rewrite Hs. cbn [lookup list_lookup lift ret].
  rewrite (mel_keywords _ _ _ Hn Hd). cbn [lift ret].
  unfold call, bind.
  destruct (filters_mel _ _ _) as [B|err]; cbn [lift ret raise alloc]; [|done].
  unfold load. rewrite load_alloc_new, (load_alloc_old _ _ _ _ Hl).
  destruct (nnls B Mv) as [X|err]; cbn [lift ret raise alloc]; [|done].
  rewrite length_app, Nat.add_1_r. cbn [length].
  destruct (py_one_over _) as [e|err]; cbn [lift ret raise].
  - unfold np_power_inplace, bind, load, store, ret.
    replace (S (length h)) with (length (h ++ [B])) by (rewrite length_app; simpl; lia).
    rewrite load_alloc_new, store_new. by rewrite <- app_assoc.
  - by rewrite <- app_assoc.
Qed.

(** Whenever [mel_to_stft] returns, it has gone through all of its steps. *)
Lemma mel_to_stft_inv h M (kw : gmap string pyval) h' l :
  mel_to_stft filters_mel nnls np_power M kw h = (h', Ok l) →
  ∃ Mv bands dims B X e,
    kw !! "M" = None ∧ kw !! "n_mels" = None ∧ kw !! "dtype" = None ∧
    h !! M = Some Mv ∧ arr_shape Mv = bands :: dims ∧
    filters_mel (param kw "sr" (PInt 22050)) (param kw "n_fft" (PInt 2048))
      (<["n_mels" := PInt bands]>
         (<["dtype" := PDtype (arr_dtype Mv)]>
            (var_keywords mel_to_stft_params kw))) = Ok B ∧
    nnls B Mv = Ok X ∧
    py_one_over (param kw "power" (PFloat 2)) = Ok e ∧
    h' = h ++ [B; arr_map (λ x, np_power x e) X] ∧ l = S (length h).
Proof.
  intros Hrun.
  destruct (kw !! "M") as [v|] eqn:HM.
  { unfold mel_to_stft, bind, bind_positional in Hrun. rewrite HM in Hrun.
    rewrite decide_True in Hrun by eauto. done. }
  destruct (h !! M) as [Mv|] eqn:Hl; cycle 1.
  { unfold mel_to_stft, bind, bind_positional in Hrun. rewrite HM in Hrun.
    rewrite decide_False in Hrun by (by intros [? ?]).
    cbn [ret] in Hrun. unfold load in Hrun. rewrite Hl in Hrun. done. }
  destruct (arr_shape Mv) as [|bands dims] eqn:Hs.
  { unfold mel_to_stft, bind, bind_positional in Hrun. rewrite HM in Hrun.
    rewrite decide_False in Hrun by (by intros [? ?]).
    cbn [ret] in Hrun. unfold load in Hrun. rewrite Hl in Hrun.
    unfold shape_at in Hrun. rewrite Hs in Hrun. done. }
  assert (kw !! "n_mels" = None ∧ kw !! "dtype" = None) as [Hn Hd].
  { destruct (kw !! "n_mels") as [v|] eqn:Hn;
      [|destruct (kw !! "dtype") as [v|] eqn:Hd; [|done]];
      exfalso;
      unfold mel_to_stft, bind, bind_positional in Hrun; rewrite HM in Hrun;
      rewrite decide_False in Hrun by (by intros [? ?]);
      cbn [ret] in Hrun; unfold load in Hrun; rewrite Hl in Hrun;
      unfold shape_at in Hrun; rewrite Hs in Hrun;
      cbn [lookup list_lookup lift ret] in Hrun.
    - rewrite (keywords_clash _ _ "n_mels" v) in Hrun; [done| |].
      + simpl. apply list_elem_of_here.
      + rewrite var_keywords_lookup, decide_False; [done|].
        apply (bool_decide_unpack _). by vm_compute.
    - rewrite (keywords_clash _ _ "dtype" v) in Hrun; [done| |].
      + simpl. apply list_elem_of_further, list_elem_of_here.
      + rewrite var_keywords_lookup, decide_False; [done|].
        apply (bool_decide_unpack _). by vm_compute. }
  rewrite (mel_to_stft_steps _ _ _ _ _ _ HM Hn Hd Hl Hs) in Hrun.
  destruct (filters_mel _ _ _) as [B|] eqn:HB; [|done].
  destruct (nnls B Mv) as [X|] eqn:HX; [|done].
  destruct (py_one_over _) as [e|] eqn:He; [|done].
  inversion Hrun; subst. by exists Mv, bands, dims, B, X, e.
Qed.

(** *** Mel-to-magnitude inversion *)

(** C3.  Shape propagation: for a mel spectrogram [M] of shape
    [(n_mels, T)] and [n_fft = F] that the basis constructor and the solver
    accept, and a positive [power] (a float, or an integer that converts to
    one), [mel_to_stft] returns, and the array it returns has shape
    [(F//2+1, T)]. *)
Theorem mel_to_stft_shape h M Mv (kw : gmap string pyval) n_mels T F B X :
  mel_basis_contract filters_mel →
  nnls_shape_contract nnls →
  kw !! "M" = None → kw !! "n_mels" = None → kw !! "dtype" = None →
  h !! M = Some Mv →
  arr_shape Mv = [n_mels; T] →
  param kw "n_fft" (PInt 2048) = PInt F →
  filters_mel (param kw "sr" (PInt 22050)) (PInt F)
    (<["n_mels" := PInt n_mels]>
       (<["dtype" := PDtype (arr_dtype Mv)]>
          (var_keywords mel_to_stft_params kw))) = Ok B →
  nnls B Mv = Ok X →
  py_positive (param kw "power" (PFloat 2)) →
  ∃ h' l S,
    mel_to_stft filters_mel nnls np_power M kw h = (h', Ok l) ∧
    h' !! l = Some S ∧
    arr_shape S = [F / 2 + 1; T].
Proof.
  intros Hmel Hnnls HM Hn Hd Hl Hs HF HB HX Hp.
  destruct (Hmel _ _ _ _ _ _ (mel_keywords_n_mels _ _ _)
              (mel_keywords_dtype _ _ _) HB) as (HsB & _ & _).
  pose proof (Hnnls B Mv X _ _ _ HsB Hs HX) as HsX.
  destruct (py_one_over_positive _ Hp) as (e & He & _).
  rewrite (mel_to_stft_steps _ _ _ _ _ _ HM Hn Hd Hl Hs), HF, HB, HX, He.
  eexists _, _, _. split; [done|]. split.
  - rewrite (lookup_app_r h) by lia.
    by replace (S (length h) - length h)%nat with 1%nat by lia.
  - exact HsX.
Qed.

(** C8.  Non-negativity: when the solver never returns negative entries
    and the power of a non-negative number to a positive exponent is
    non-negative, a call with [power > 0] on an input that the basis
    constructor and the solver accept returns an array all of whose
    entries are at least 0. *)
Theorem mel_to_stft_nonneg h M Mv (kw : gmap string pyval) bands dims B X :
  nnls_nonneg nnls →
  np_power_contract np_power →
  kw !! "M" = None → kw !! "n_mels" = None → kw !! "dtype" = None →
  h !! M = Some Mv →
  nonneg Mv →
  arr_shape Mv = bands :: dims →
  filters_mel (param kw "sr" (PInt 22050)) (param kw "n_fft" (PInt 2048))
    (<["n_mels" := PInt bands]>
       (<["dtype" := PDtype (arr_dtype Mv)]>
          (var_keywords mel_to_stft_params kw))) = Ok B →
  nnls B Mv = Ok X →
  py_positive (param kw "power" (PFloat 2)) →
  ∃ h' l S,
    mel_to_stft filters_mel nnls np_power M kw h = (h', Ok l) ∧
    h' !! l = Some S ∧
    nonneg S.
Proof.
  intros Hnn Hpow HM Hn Hd Hl _ Hs HB HX Hp.
  destruct (py_one_over_positive _ Hp) as (e & He & Hepos).
  rewrite (mel_to_stft_steps _ _ _ _ _ _ HM Hn Hd Hl Hs), HB, HX, He.
  eexists _, _, _. split; [done|]. split.
  - rewrite (lookup_app_r h) by lia.
    by replace (S (length h) - length h)%nat with 1%nat by lia.
  - unfold nonneg, arr_map. simpl. apply Forall_fmap.
    eapply Forall_impl; [exact (Hnn _ _ _ HX)|].
    intros x Hx. simpl. by apply Hpow.
Qed.

(** C6.  [mel_to_stft] is the composition of section 4.1: on a
    well-formed call with a non-zero float [power], the caller observes
    exactly what [mel_to_stft_spec] prescribes; and when the call returns,
    the first buffer it created is a basis with as many rows as [M] has
    bands, [n_fft//2+1] columns and the numeric type of [M], and the buffer
    it returns is the solver's answer for that basis and [M] with every
    entry raised to [1/power]. *)
Theorem mel_to_stft_composition h M Mv (kw : gmap string pyval) bands frames F p :
  mel_basis_contract filters_mel →
  kw !! "M" = None → kw !! "n_mels" = None → kw !! "dtype" = None →
  h !! M = Some Mv →
  arr_shape Mv = [bands; frames] →
  param kw "n_fft" (PInt 2048) = PInt F →
  param kw "power" (PFloat 2) = PFloat p →
  p ≠ 0%R →
  value_of (mel_to_stft filters_mel nnls np_power M kw) h
  = mel_to_stft_spec filters_mel nnls np_power Mv bands
      (param kw "sr" (PInt 22050)) (PInt F) p
      (var_keywords mel_to_stft_params kw)
  ∧ ∀ h' l,
      mel_to_stft filters_mel nnls np_power M kw h = (h', Ok l) →
      ∃ mel_basis X,
        h' = h ++ [mel_basis; arr_map (λ x, np_power x (1 / p)%R) X] ∧
        l = S (length h) ∧
        arr_shape mel_basis = [bands; F / 2 + 1] ∧
        arr_dtype mel_basis = arr_dtype Mv ∧
        nnls mel_basis Mv = Ok X.
Proof.
  intros Hmel HM Hn Hd Hl Hs HF Hp Hp0.
  assert (py_one_over (param kw "power" (PFloat 2)) = Ok (1 / p)%R) as He.
  { rewrite Hp. simpl. by rewrite decide_False. }
  split.
  - unfold value_of, mel_to_stft_spec, res_bind.
    rewrite (mel_to_stft_steps _ _ _ _ _ _ HM Hn Hd Hl Hs), HF, He.
    destruct (filters_mel _ _ _) as [B|]; [|done].
    destruct (nnls B Mv) as [X|]; [|done].
    rewrite (lookup_app_r h) by lia.
    by replace (S (length h) - length h)%nat with 1%nat by lia.
  - intros h' l Hrun.
    rewrite (mel_to_stft_steps _ _ _ _ _ _ HM Hn Hd Hl Hs), HF, He in Hrun.
    destruct (filters_mel _ _ _) as [B|] eqn:HB; [|done].
    destruct (nnls B Mv) as [X|] eqn:HX; [|done].
    inversion Hrun; subst. exists B, X.
    destruct (Hmel _ _ _ _ _ _ (mel_keywords_n_mels _ _ _)
                (mel_keywords_dtype _ _ _) HB) as (HsB & HdB & _).
    done.
Qed.

(** C1, as the code has it.  With [power] a built-in Python number (an
    int, a float or a bool) equal to 0, a call to [mel_to_stft] never
    returns an array; and on an input that the basis constructor and the
    solver accept, it raises [ZeroDivisionError], from the expression
    [1./power], after the solve. *)
Theorem mel_to_stft_zero_power h M (kw : gmap string pyval) :
  py_zero (param kw "power" (PFloat 2)) →
  (∀ h' l, mel_to_stft filters_mel nnls np_power M kw h ≠ (h', Ok l)) ∧
  (∀ Mv bands dims B X,
     kw !! "M" = None → kw !! "n_mels" = None → kw !! "dtype" = None →
     h !! M = Some Mv →
     arr_shape Mv = bands :: dims →
     filters_mel (param kw "sr" (PInt 22050)) (param kw "n_fft" (PInt 2048))
       (<["n_mels" := PInt bands]>
          (<["dtype" := PDtype (arr_dtype Mv)]>
             (var_keywords mel_to_stft_params kw))) = Ok B →
     nnls B Mv = Ok X →
     mel_to_stft filters_mel nnls np_power M kw h
     = (h ++ [B; X], Raise ZeroDivisionError)).
Proof.
  intros Hz. apply py_one_over_zero in Hz. split.
  - intros h' l Hrun. apply mel_to_stft_inv in Hrun
      as (? & ? & ? & ? & ? & e & _ & _ & _ & _ & _ & _ & _ & He & _).
    rewrite Hz in He. done.
  - intros Mv bands dims B X HM Hn Hd Hl Hs HB HX.
    by rewrite (mel_to_stft_steps _ _ _ _ _ _ HM Hn Hd Hl Hs), HB, HX, Hz.
Qed.

(** *** Magnitude-to-audio reconstruction *)

(** The dictionary that [mel_to_audio] passes to [mel_to_stft]: the three
    explicit keywords never clash with what is left in [**kwargs]. *)
Lemma stft_keywords sr n_fft power (kw : gmap string pyval) :
  keywords [("sr", sr); ("n_fft", n_fft); ("power", power)]
           (var_keywords mel_to_audio_params kw)
  = Ok (<["sr" := sr]> (<["n_fft" := n_fft]> (<["power" := power]>
          (var_keywords mel_to_audio_params kw)))).
Proof.
  rewrite keywords_fresh.
  - simpl. by rewrite <- !insert_union_l, (left_id_L ∅ (∪)).
  - repeat constructor; simpl; rewrite var_keywords_lookup;
      apply decide_True; apply (bool_decide_unpack _); by vm_compute.
Qed.

(** X14.  Leaving [hop_length] out of a call is the same as passing 512,
    whatever [n_fft] is. *)
Lemma mel_to_audio_hop_default M (kw : gmap string pyval) h :
  mel_to_audio filters_mel nnls np_power griffinlim M (delete "hop_length" kw) h
  = mel_to_audio filters_mel nnls np_power griffinlim M
      (<["hop_length" := PInt 512]> kw) h.
Proof.
  assert (∀ k, k ≠ "hop_length" →
            delete "hop_length" kw !! k = <["hop_length" := PInt 512]> kw !! k)
    as Hother.
  { intros k Hk. by rewrite lookup_delete_ne, lookup_insert_ne. }
  assert (var_keywords mel_to_audio_params (delete "hop_length" kw)
          = var_keywords mel_to_audio_params (<["hop_length" := PInt 512]> kw))
    as Hrest.
  { apply map_eq. intros k. rewrite !var_keywords_lookup.
    case_decide; [done|]. apply Hother. intros ->.
    by apply H, (bool_decide_unpack _). }
  unfold mel_to_audio, bind_positional, param.
  rewrite Hrest, lookup_delete_eq, lookup_insert_eq.
  by rewrite !Hother by done.
Qed.

(** Every path through [mel_to_audio] for a call that does not repeat [M]
    as a keyword. *)
Lemma mel_to_audio_steps h M (kw : gmap string pyval) :
  kw !! "M" = None →
  mel_to_audio filters_mel nnls np_power griffinlim M kw h =
    match mel_to_stft filters_mel nnls np_power M (stft_keywords_of kw) h with
    | (h', Ok stft) =>
        match h' !! stft with
        | Some magnitudes =>
            match griffinlim magnitudes (griffinlim_keywords_of kw) with
            | Ok y => (h' ++ [y], Ok (length h'))
            | Raise err => (h', Raise err)
            end
        | None => (h', Raise DanglingReference)
        end
    | (h', Raise err) => (h', Raise err)
    end.
Proof.
  intros HM. unfold mel_to_audio, bind, bind_positional.
  rewrite HM. rewrite decide_False by (by intros [? ?]).
  cbn [ret]. rewrite stft_keywords. cbn [lift ret].
  fold (stft_keywords_of kw). fold (griffinlim_keywords_of kw).
  destruct (mel_to_stft _ _ _ _ _ _) as [h' [stft|err]]; [|done].
  unfold load. destruct (h' !! stft) as [magnitudes|]; [|done].
  unfold call, bind.
  by destruct (griffinlim _ _) as [y|err].
Qed.

(** *** Cepstral-to-mel inversion *)

Lemma cepstral_keywords_accepted (kw : gmap string pyval) :
  dom kw ⊆ list_to_set (C := gset string) cepstral_params →
  kw !! "mfcc" = None ∧
  dom kw ⊆ list_to_set (C := gset string) mfcc_to_mel_params.
Proof.
  intros Hdom. split.
  - apply not_elem_of_dom. intros Hin. apply Hdom in Hin.
    revert Hin. apply (bool_decide_unpack _). by vm_compute.
  - etrans; [exact Hdom|]. apply (bool_decide_unpack _). by vm_compute.
Qed.

(** Every path through [mfcc_to_mel] for a call whose keywords are among
    [n_mels], [dct_type], [norm] and [ref]. *)
Lemma mfcc_to_mel_steps h mfcc x (kw : gmap string pyval) :
  dom kw ⊆ list_to_set (C := gset string) cepstral_params →
  h !! mfcc = Some x →
  mfcc_to_mel idct mfcc kw h =
    match idct x (param kw "dct_type" (PInt 2)) (param kw "norm" (PStr "ortho"))
               (param kw "n_mels" (PInt 128)) with
    | Raise err => (h, Raise err)
    | Ok logmel =>
        match db_to_power logmel (param kw "ref" (PFloat 1)) with
        | Ok mel => (h ++ [logmel; mel], Ok (S (length h)))
        | Raise err => (h ++ [logmel], Raise err)
        end
    end.
Proof.
  intros Hdom Hl. destruct (cepstral_keywords_accepted _ Hdom) as [Hm Hsub].
  unfold mfcc_to_mel, bind, bind_positional, no_var_keywords.
  rewrite Hm. rewrite decide_False by (by intros [? ?]).
  cbn [ret]. rewrite decide_True by done. cbn [ret].
  unfold load at 1. rewrite Hl.
  unfold call, bind.
  destruct (idct _ _ _ _) as [logmel|err]; cbn [lift ret raise alloc]; [|done].
  unfold load. rewrite load_alloc_new.
  destruct (db_to_power _ _) as [mel|err]; cbn [lift ret raise alloc].
  - unfold alloc. rewrite length_app, Nat.add_1_r. by rewrite <- app_assoc.
  - done.
Qed.

(** C4.  When the inverse DCT treats normalization with type 1 as an
    invalid-parameter condition, [mfcc_to_mel] called with [dct_type=1]
    and [norm='ortho'] fails with that error for every MFCC matrix:
    the module adds no check of its own and lets the error through. *)
Theorem mfcc_to_mel_type1_ortho h mfcc x (kw : gmap string pyval) :
  idct_rejects_ortho_type1 idct →
  dom kw ⊆ list_to_set (C := gset string) cepstral_params →
  h !! mfcc = Some x →
  kw !! "dct_type" = Some (PInt 1) →
  param kw "norm" (PStr "ortho") = PStr "ortho" →
  mfcc_to_mel idct mfcc kw h = (h, Raise ParameterError).
Proof.
  intros Hrej Hdom Hl Ht Hnorm.
  rewrite (mfcc_to_mel_steps _ _ _ _ Hdom Hl), Hnorm.
  unfold param at 1. rewrite Ht. simpl. by rewrite Hrej.
Qed.

Lemma db_to_power_reference logmel ref :
  db_to_power logmel ref
  = res_bind (reference_power ref logmel)
      (λ r, Ok {| arr_dtype := arr_dtype logmel;
                  arr_shape := arr_shape logmel;
                  arr_data := map (λ x, r * Rpower 10 (x / 10))%R
                                  (arr_data logmel) |}).
Proof. unfold db_to_power. by destruct ref. Qed.

(** C7.  [mfcc_to_mel] is the two steps of section 4.3: the caller
    observes exactly what [mfcc_to_mel_spec] prescribes, the inverse DCT
    with [n_mels] output coefficients followed by [ref * 10^(logmel/10)]
    on every entry, [ref] being a number or a callable applied to the
    log-power array; and for an input of shape [(coefficients, frames)]
    the array returned has shape [(n_mels, frames)]. *)
Theorem mfcc_to_mel_two_steps h mfcc x (kw : gmap string pyval) :
  idct_shape_contract idct →
  dom kw ⊆ list_to_set (C := gset string) cepstral_params →
  h !! mfcc = Some x →
  value_of (mfcc_to_mel idct mfcc kw) h
  = mfcc_to_mel_spec idct x (param kw "n_mels" (PInt 128))
      (param kw "dct_type" (PInt 2)) (param kw "norm" (PStr "ortho"))
      (param kw "ref" (PFloat 1))
  ∧ ∀ coeffs frames n mel,
      arr_shape x = [coeffs; frames] →
      param kw "n_mels" (PInt 128) = PInt n →
      value_of (mfcc_to_mel idct mfcc kw) h = Ok mel →
      arr_shape mel = [n; frames].
Proof.
  intros Hidct Hdom Hl.
  assert (value_of (mfcc_to_mel idct mfcc kw) h
          = mfcc_to_mel_spec idct x (param kw "n_mels" (PInt 128))
              (param kw "dct_type" (PInt 2)) (param kw "norm" (PStr "ortho"))
              (param kw "ref" (PFloat 1))) as Hval.
  { unfold value_of, mfcc_to_mel_spec.
    rewrite (mfcc_to_mel_steps _ _ _ _ Hdom Hl).
    destruct (idct _ _ _ _) as [logmel|]; [|done]. cbn [res_bind].
    rewrite <- db_to_power_reference.
    destruct (db_to_power _ _) as [mel|]; [|done].
    rewrite (lookup_app_r h) by lia.
    by replace (S (length h) - length h)%nat with 1%nat by lia. }
  split; [exact Hval|].
  intros coeffs frames n mel Hs Hn. rewrite Hval, Hn.
  unfold mfcc_to_mel_spec, res_bind.
  destruct (idct _ _ _ _) as [logmel|] eqn:Hlog; [|done].
  destruct (reference_power _ _); [|done].
  intros [= <-]. simpl. exact (Hidct _ _ _ _ _ _ _ Hs Hlog).
Qed.

(** Every path through [mfcc_to_mel_binary64] for a call whose keywords are
    among [n_mels], [dct_type], [norm] and [ref]. *)
Lemma mfcc_to_mel_binary64_steps h mfcc x (kw : gmap string pyval) :
  dom kw ⊆ list_to_set (C := gset string) cepstral_params →
  h !! mfcc = Some x →
  mfcc_to_mel_binary64 idct mfcc kw h =
    match idct x (param kw "dct_type" (PInt 2)) (param kw "norm" (PStr "ortho"))
               (param kw "n_mels" (PInt 128)) with
    | Raise err => (h, Raise err)
    | Ok logmel =>
        match db_to_power_binary64 logmel (param kw "ref" (PFloat 1)) with
        | Ok mel => (h ++ [logmel; mel], Ok (S (length h)))
        | Raise err => (h ++ [logmel], Raise err)
        end
    end.
Proof.
  intros Hdom Hl. destruct (cepstral_keywords_accepted _ Hdom) as [Hm Hsub].
  unfold mfcc_to_mel_binary64, bind, bind_positional, no_var_keywords.
  rewrite Hm. rewrite decide_False by (by intros [? ?]).
  cbn [ret]. rewrite decide_True by done. cbn [ret].
  unfold load at 1. rewrite Hl.
  unfold call, bind.
  destruct (idct _ _ _ _) as [logmel|err]; cbn [lift ret raise alloc]; [|done].
  unfold load. rewrite load_alloc_new.
  destruct (db_to_power_binary64 _ _) as [mel|err]; cbn [lift ret raise alloc].
  - unfold alloc. rewrite length_app, Nat.add_1_r. by rewrite <- app_assoc.
  - done.
Qed.

(** C10, as the code has it.  With a fixed reference power [ref > 0], on
    an MFCC matrix that the inverse DCT accepts, [mfcc_to_mel] returns an
    array all of whose entries, as stored in binary64, are greater than or
    equal to 0. *)
Theorem mfcc_to_mel_nonneg h mfcc x (kw : gmap string pyval) r logmel :
  dom kw ⊆ list_to_set (C := gset string) cepstral_params →
  h !! mfcc = Some x →
  param kw "ref" (PFloat 1) = PFloat r →
  (0 < r)%R →
  idct x (param kw "dct_type" (PInt 2)) (param kw "norm" (PStr "ortho"))
         (param kw "n_mels" (PInt 128)) = Ok logmel →
  ∃ h' l mel,
    mfcc_to_mel_binary64 idct mfcc kw h = (h', Ok l) ∧
    h' !! l = Some mel ∧
    nonneg mel.
Proof.
  intros Hdom Hl Href Hr Hlog.
  rewrite (mfcc_to_mel_binary64_steps _ _ _ _ Hdom Hl), Hlog, Href.
  unfold db_to_power_binary64. cbn [ref_value].
  eexists _, _, _. split; [done|]. split.
  - rewrite (lookup_app_r h) by lia.
    by replace (S (length h) - length h)%nat with 1%nat by lia.
  - unfold nonneg, arr_map. simpl. apply Forall_fmap, Forall_forall.
    intros v _. simpl. apply round_binary64_nonneg.
    apply Rmult_le_pos; [lra|]. unfold Rpower. left. apply exp_pos.
Qed.

(** *** Full composition *)

(** [mfcc_to_mel] looks at its keywords only through its four named
    parameters, each with its default. *)
Lemma mfcc_to_mel_ext mfcc (kw kw' : gmap string pyval) h :
  dom kw ⊆ list_to_set (C := gset string) cepstral_params →
  dom kw' ⊆ list_to_set (C := gset string) cepstral_params →
  param kw "n_mels" (PInt 128) = param kw' "n_mels" (PInt 128) →
  param kw "dct_type" (PInt 2) = param kw' "dct_type" (PInt 2) →
  param kw "norm" (PStr "ortho") = param kw' "norm" (PStr "ortho") →
  param kw "ref" (PFloat 1) = param kw' "ref" (PFloat 1) →
  mfcc_to_mel idct mfcc kw h = mfcc_to_mel idct mfcc kw' h.
Proof.
  intros Hdom Hdom' Hn Ht Hnorm Href.
  destruct (cepstral_keywords_accepted _ Hdom) as [Hm Hsub].
  destruct (cepstral_keywords_accepted _ Hdom') as [Hm' Hsub'].
  unfold mfcc_to_mel, bind, bind_positional, no_var_keywords.
  rewrite Hm, Hm'. rewrite !decide_False by (by intros [? ?]).
  cbn [ret]. rewrite !decide_True by done. cbn [ret].
  by rewrite Hn, Ht, Hnorm, Href.
Qed.

(** C5.  Composition equivalence: for every split of the keywords [kw]
    into cepstral-inversion parameters [kw1] and remaining parameters
    [kw2], [mfcc_to_audio(mfcc, **kw)] behaves exactly as
    [mel_to_audio(mfcc_to_mel(mfcc, **kw1), **kw2)]: same result or
    exception, same store. *)
Theorem mfcc_to_audio_composition mfcc (kw kw1 kw2 : gmap string pyval) h :
  kw = kw1 ∪ kw2 →
  dom kw1 ⊆ list_to_set (C := gset string) cepstral_params →
  (∀ k, k ∈ cepstral_params → kw2 !! k = None) →
  kw !! "mfcc" = None →
  mfcc_to_audio filters_mel nnls np_power griffinlim idct mfcc kw h
  = (mel_spec <- mfcc_to_mel idct mfcc kw1;;
     mel_to_audio filters_mel nnls np_power griffinlim mel_spec kw2) h.
Proof.
  intros -> H1 H2 Hm.
  apply lookup_union_None in Hm as [Hm1 Hm2].
  assert (∀ k, k ∉ cepstral_params → kw1 !! k = None) as H1'.
  { intros k Hk. apply not_elem_of_dom. intros Hin. apply H1 in Hin.
    by apply elem_of_list_to_set in Hin. }
  assert (var_keywords mfcc_to_mel_params (kw1 ∪ kw2) = kw2) as Hrest.
  { apply map_eq. intros k. rewrite var_keywords_lookup.
    case_decide as Hk.
    - symmetry. apply elem_of_cons in Hk as [->|Hk]; [done|]. by apply H2.
    - rewrite lookup_union_r; [done|]. apply H1'. intros Hin. apply Hk.
      by apply list_elem_of_further. }
  unfold mfcc_to_audio, bind, bind_positional.
  rewrite (proj2 (lookup_union_None kw1 kw2 "mfcc") (conj Hm1 Hm2)).
  rewrite decide_False by (by intros [? ?]). cbn [ret].
  rewrite Hrest.
  assert (∀ k d, bool_decide (k ∈ cepstral_params) →
            param (kw1 ∪ kw2) k d = param kw1 k d) as Hk1.
  { intros k d Hk%bool_decide_unpack. unfold param.
    by rewrite (lookup_union_l kw1 kw2) by (by apply H2). }
  rewrite (mfcc_to_mel_ext mfcc _ kw1); [done| |done|..].
  - by rewrite dom_list_to_map_L.
  - by rewrite <- Hk1.
  - by rewrite <- Hk1.
  - by rewrite <- Hk1.
  - by rewrite <- Hk1.
Qed.

(** *** Purity over the store *)

Lemma extends_ret {A} (a : A) : extends (ret a).
Proof. intros h. exists []. simpl. by rewrite app_nil_r. Qed.

Lemma extends_raise {A} e : extends (raise (A := A) e).
Proof. intros h. exists []. simpl. by rewrite app_nil_r. Qed.

Lemma extends_lift {A} (r : res A) : extends (lift r).
Proof. destruct r; [apply extends_ret | apply extends_raise]. Qed.

Lemma extends_load l : extends (load l).
Proof.
  intros h. exists []. unfold load.
  destruct (h !! l); simpl; by rewrite app_nil_r.
Qed.

Lemma extends_alloc a : extends (alloc a).
Proof. intros h. by exists [a]. Qed.

Lemma extends_bind {A B} (m : Py A) (k : A → Py B) :
  extends m → (∀ a, extends (k a)) → extends (bind m k).
Proof.
  intros Hm Hk h. unfold bind. destruct (Hm h) as [c1 H1].
  destruct (m h) as [h' [a|e]]; simpl in H1; subst h'.
  - destruct (Hk a (h ++ c1)) as [c2 H2]. exists (c1 ++ c2).
    by rewrite H2, app_assoc.
  - by exists c1.
Qed.

Lemma extends_call r : extends (call r).
Proof.
  apply extends_bind; [apply extends_lift | intros a; apply extends_alloc].
Qed.

Lemma extends_bind_positional name (kw : gmap string pyval) :
  extends (bind_positional name kw).
Proof.
  unfold bind_positional. case_decide; [apply extends_raise | apply extends_ret].
Qed.

Lemma extends_no_var_keywords named (kw : gmap string pyval) :
  extends (no_var_keywords named kw).
Proof.
  unfold no_var_keywords. case_decide; [apply extends_ret | apply extends_raise].
Qed.

(** The in-place exponent of [mel_to_stft] overwrites the buffer that the
    solver call has just created, and no other. *)
Lemma extends_solve_then_power (solution : res ndarray) (exponent : res R) :
  extends (inverse <- call solution;;
           e <- lift exponent;;
           np_power_inplace np_power inverse e).
Proof.
  intros h. unfold call, bind.
  destruct solution as [X|err]; cbn [lift ret raise alloc].
  - destruct exponent as [e|err]; cbn [lift ret raise].
    + unfold np_power_inplace, bind, load, store, ret.
      rewrite load_alloc_new, store_new. by eexists.
    + by eexists.
  - exists []. simpl. by rewrite app_nil_r.
Qed.

Lemma mel_to_stft_extends M (kw : gmap string pyval) :
  extends (mel_to_stft filters_mel nnls np_power M kw).
Proof.
  unfold mel_to_stft.
  apply extends_bind; [apply extends_bind_positional | intros _].
  apply extends_bind; [apply extends_load | intros Mv].
  apply extends_bind; [apply extends_lift | intros n_mels].
  apply extends_bind; [apply extends_lift | intros kw_mel].
  apply extends_bind; [apply extends_call | intros mel_basis].
  apply extends_bind; [apply extends_load | intros A].
  apply extends_bind; [apply extends_load | intros B].
  apply extends_solve_then_power.
Qed.

Lemma mel_to_audio_extends M (kw : gmap string pyval) :
  extends (mel_to_audio filters_mel nnls np_power griffinlim M kw).
Proof.
  unfold mel_to_audio.
  apply extends_bind; [apply extends_bind_positional | intros _].
  apply extends_bind; [apply extends_lift | intros kw_stft].
  apply extends_bind; [apply mel_to_stft_extends | intros stft].
  apply extends_bind; [apply extends_load | intros magnitudes].
  apply extends_call.
Qed.

Lemma mfcc_to_mel_extends mfcc (kw : gmap string pyval) :
  extends (mfcc_to_mel idct mfcc kw).
Proof.
  unfold mfcc_to_mel.
  apply extends_bind; [apply extends_bind_positional | intros _].
  apply extends_bind; [apply extends_no_var_keywords | intros _].
  apply extends_bind; [apply extends_load | intros x].
  apply extends_bind; [apply extends_call | intros logmel].
  apply extends_bind; [apply extends_load | intros S_db].
  apply extends_call.
Qed.

Lemma mfcc_to_audio_extends mfcc (kw : gmap string pyval) :
  extends (mfcc_to_audio filters_mel nnls np_power griffinlim idct mfcc kw).
Proof.
  unfold mfcc_to_audio.
  apply extends_bind; [apply extends_bind_positional | intros _].
  apply extends_bind; [apply mfcc_to_mel_extends | intros mel_spec].
  apply mel_to_audio_extends.
Qed.

Lemma extends_pure (f : loc → gmap string pyval → Py loc) :
  (∀ M kw, extends (f M kw)) → pure_over_store f.
Proof.
  intros Hf M kw h. split; [apply Hf|].
  intros l a Hl. destruct (Hf M kw h) as [created ->].
  by apply lookup_app_l_Some.
Qed.

(** C9.  The four public functions are pure over their inputs: however a
    call ends, the store it leaves is the store it found followed by the
    buffers the call created, so every array the caller held, the input
    among them, is unchanged; the in-place exponent of [mel_to_stft] falls
    on a buffer created by the call. *)
Theorem public_functions_pure :
  pure_over_store (mel_to_stft filters_mel nnls np_power) ∧
  pure_over_store (mel_to_audio filters_mel nnls np_power griffinlim) ∧
  pure_over_store (mfcc_to_mel idct) ∧
  pure_over_store (mfcc_to_audio filters_mel nnls np_power griffinlim idct).
Proof.
  split; [|split; [|split]]; apply extends_pure.
  - apply mel_to_stft_extends.
  - apply mel_to_audio_extends.
  - apply mfcc_to_mel_extends.
  - apply mfcc_to_audio_extends.
Qed.

End properties.

(** ** The instances meet the contracts *)

Lemma ones_filters_mel_contract : mel_basis_contract ones_filters_mel.
Proof.
  intros sr n_fft n_mels d kw B Hn Hd. unfold ones_filters_mel.
  rewrite Hn, Hd. intros [= <-]. repeat split.
  unfold nonneg, constant_array. simpl. apply Forall_replicate. lra.
Qed.

Lemma zero_nnls_shape : nnls_shape_contract zero_nnls.
Proof.
  intros A B X rows ca cb HA HB. unfold zero_nnls. rewrite HA, HB.
  rewrite decide_True by done. by intros [= <-].
Qed.

Lemma zero_nnls_nonneg : nnls_nonneg zero_nnls.
Proof.
  intros A B X. unfold zero_nnls.
  destruct (arr_shape A) as [|ra [|ca [|]]]; try done.
  destruct (arr_shape B) as [|rb [|cb [|]]]; try done.
  case_decide; [|done]. intros [= <-].
  unfold nonneg, constant_array. simpl. apply Forall_replicate. lra.
Qed.

Lemma real_power_contract : np_power_contract real_power.
Proof.
  intros x e _ _. unfold real_power. destruct (Rlt_dec 0 x); [|lra].
  unfold Rpower. left. apply exp_pos.
Qed.

Lemma zero_idct_shape : idct_shape_contract zero_idct.
Proof.
  intros x type norm n coeffs frames y Hs. unfold zero_idct. rewrite Hs.
  assert (Ok (constant_array (arr_dtype x) [n; frames] 0%R) = Ok y →
          arr_shape y = [n; frames]) as Hok by (by intros [= <-]).
  repeat case_match; try done.
Qed.

Lemma zero_idct_rejects : idct_rejects_ortho_type1 zero_idct.
Proof. done. Qed.

(** ** The functions at concrete inputs *)

(** C1, as the specification states it, fails: with the one-by-one mel
    spectrogram [M1] and [power=0.0] the call raises [ZeroDivisionError],
    which is not the invalid-parameter error. *)
Lemma mel_to_stft_power_zero_is_not_parameter_error :
  (mel_to_stft ones_filters_mel zero_nnls real_power 0%nat
     {["power" := PFloat 0]} [M1]).2 = Raise ZeroDivisionError
  ∧ (mel_to_stft ones_filters_mel zero_nnls real_power 0%nat
       {["power" := PFloat 0]} [M1]).2 ≠ Raise ParameterError.
Proof.
  rewrite (mel_to_stft_steps ones_filters_mel zero_nnls real_power
             [M1] 0%nat M1 {["power" := PFloat 0]} 1 [1]) by reflexivity.
  change (param {["power" := PFloat 0]} "power" (PFloat 2)) with (PFloat 0).
  rewrite (py_one_over_zero (PFloat 0)) by reflexivity.
  split; vm_compute; [reflexivity | discriminate].
Qed.

Lemma mel_to_stft_zero_power_witness :
  (∀ h' l, mel_to_stft ones_filters_mel zero_nnls real_power 0%nat
             {["power" := PFloat 0]} [M1] ≠ (h', Ok l)) ∧
  (∀ Mv bands dims B X,
     ({["power" := PFloat 0]} : gmap string pyval) !! "M" = None →
     ({["power" := PFloat 0]} : gmap string pyval) !! "n_mels" = None →
     ({["power" := PFloat 0]} : gmap string pyval) !! "dtype" = None →
     [M1] !! 0%nat = Some Mv →
     arr_shape Mv = bands :: dims →
     ones_filters_mel (param {["power" := PFloat 0]} "sr" (PInt 22050))
       (param {["power" := PFloat 0]} "n_fft" (PInt 2048))
       (<["n_mels" := PInt bands]>
          (<["dtype" := PDtype (arr_dtype Mv)]>
             (var_keywords mel_to_stft_params {["power" := PFloat 0]}))) = Ok B →
     zero_nnls B Mv = Ok X →
     mel_to_stft ones_filters_mel zero_nnls real_power 0%nat
       {["power" := PFloat 0]} [M1]
     = ([M1] ++ [B; X], Raise ZeroDivisionError)).
Proof.
  apply (mel_to_stft_zero_power ones_filters_mel zero_nnls real_power
           [M1] 0%nat {["power" := PFloat 0]}).
  reflexivity.
Defined.

Lemma mel_to_stft_shape_witness :
  ∃ h' l S,
    mel_to_stft ones_filters_mel zero_nnls real_power 0%nat
      {["n_fft" := PInt 4]} [M1] = (h', Ok l) ∧
    h' !! l = Some S ∧
    arr_shape S = [4 / 2 + 1; 1].
Proof.
  apply (mel_to_stft_shape ones_filters_mel zero_nnls real_power
           [M1] 0%nat M1 {["n_fft" := PInt 4]} 1 1 4
           (constant_array float64 [1; 3] 1%R)
           (constant_array float64 [3; 1] 0%R)).
  - exact ones_filters_mel_contract.
  - exact zero_nnls_shape.
  - reflexivity.
  - reflexivity.
  - reflexivity.
  - reflexivity.
  - reflexivity.
  - reflexivity.
  - reflexivity.
  - reflexivity.
  - vm_compute. lra.
Defined.

Lemma mel_to_stft_nonneg_witness :
  ∃ h' l S,
    mel_to_stft ones_filters_mel zero_nnls real_power 0%nat
      {["n_fft" := PInt 4]} [M1] = (h', Ok l) ∧
    h' !! l = Some S ∧
    nonneg S.
Proof.
  apply (mel_to_stft_nonneg ones_filters_mel zero_nnls real_power
           [M1] 0%nat M1 {["n_fft" := PInt 4]} 1 [1]
           (constant_array float64 [1; 3] 1%R)
           (constant_array float64 [3; 1] 0%R)).
  - exact zero_nnls_nonneg.
  - exact real_power_contract.
  - reflexivity.
  - reflexivity.
  - reflexivity.
  - reflexivity.
  - constructor; [simpl; lra | constructor].
  - reflexivity.
  - reflexivity.
  - reflexivity.
  - vm_compute. lra.
Defined.

Lemma mel_to_stft_composition_witness :
  value_of (mel_to_stft ones_filters_mel zero_nnls real_power 0%nat
              {["n_fft" := PInt 4]}) [M1]
  = mel_to_stft_spec ones_filters_mel zero_nnls real_power M1 1
      (param {["n_fft" := PInt 4]} "sr" (PInt 22050)) (PInt 4) 2
      (var_keywords mel_to_stft_params {["n_fft" := PInt 4]})
  ∧ ∀ h' l,
      mel_to_stft ones_filters_mel zero_nnls real_power 0%nat
        {["n_fft" := PInt 4]} [M1] = (h', Ok l) →
      ∃ mel_basis X,
        h' = [M1] ++ [mel_basis; arr_map (λ x, real_power x (1 / 2)%R) X] ∧
        l = S (length [M1]) ∧
        arr_shape mel_basis = [1; 4 / 2 + 1] ∧
        arr_dtype mel_basis = arr_dtype M1 ∧
        zero_nnls mel_basis M1 = Ok X.
Proof.
  apply (mel_to_stft_composition ones_filters_mel zero_nnls real_power
           [M1] 0%nat M1 {["n_fft" := PInt 4]} 1 1 4 2%R).
  - exact ones_filters_mel_contract.
  - reflexivity.
  - reflexivity.
  - reflexivity.
  - reflexivity.
  - reflexivity.
  - reflexivity.
  - reflexivity.
  - lra.
Defined.

(** C2 at [n_fft = 1024] with [hop_length] left out: the phase
    reconstructor, which here answers with the hop length it receives, is
    given 512, whereas a quarter of the FFT size is 256. *)
Theorem mel_to_audio_hop_length_at_n_fft_1024 :
  value_of (mel_to_audio ones_filters_mel zero_nnls real_power
              echo_hop_griffinlim 0%nat {["n_fft" := PInt 1024]}) [M1]
  = Ok {| arr_dtype := float32; arr_shape := [1]; arr_data := [IZR 512] |}
  ∧ 1024 / 4 = 256
  ∧ IZR 512 ≠ IZR 256.
Proof.
  split; [|split; [reflexivity | intros H%eq_IZR; discriminate]].
  unfold value_of.
  rewrite mel_to_audio_steps by reflexivity.
  rewrite (mel_to_stft_steps ones_filters_mel zero_nnls real_power
             [M1] 0%nat M1 (stft_keywords_of {["n_fft" := PInt 1024]}) 1 [1])
    by reflexivity.
  change (param (stft_keywords_of {["n_fft" := PInt 1024]}) "power" (PFloat 2))
    with (PFloat 2).
  assert (py_one_over (PFloat 2) = Ok (1 / 2)%R) as ->.
  { simpl. rewrite decide_False by lra. reflexivity. }
  vm_compute. reflexivity.
Qed.

Lemma mfcc_to_mel_type1_ortho_witness :
  mfcc_to_mel zero_idct 0%nat {["dct_type" := PInt 1]} [M1]
  = ([M1], Raise ParameterError).
Proof.
  apply (mfcc_to_mel_type1_ortho zero_idct [M1] 0%nat M1 {["dct_type" := PInt 1]}).
  - exact zero_idct_rejects.
  - apply (bool_decide_unpack _). vm_compute. reflexivity.
  - reflexivity.
  - reflexivity.
  - reflexivity.
Defined.

Lemma mfcc_to_mel_two_steps_witness :
  value_of (mfcc_to_mel zero_idct 0%nat {["n_mels" := PInt 2]}) [M1]
  = mfcc_to_mel_spec zero_idct M1
      (param {["n_mels" := PInt 2]} "n_mels" (PInt 128))
      (param {["n_mels" := PInt 2]} "dct_type" (PInt 2))
      (param {["n_mels" := PInt 2]} "norm" (PStr "ortho"))
      (param {["n_mels" := PInt 2]} "ref" (PFloat 1))
  ∧ ∀ coeffs frames n mel,
      arr_shape M1 = [coeffs; frames] →
      param {["n_mels" := PInt 2]} "n_mels" (PInt 128) = PInt n →
      value_of (mfcc_to_mel zero_idct 0%nat {["n_mels" := PInt 2]}) [M1] = Ok mel →
      arr_shape mel = [n; frames].
Proof.
  apply (mfcc_to_mel_two_steps zero_idct [M1] 0%nat M1 {["n_mels" := PInt 2]}).
  - exact zero_idct_shape.
  - apply (bool_decide_unpack _). vm_compute. reflexivity.
  - reflexivity.
Defined.

(** C10, as stated, fails: for the MFCC matrix [[-4000.]] with one band
    the log-mel entry is -4000, and [1.0 * 10^(-400)] is stored as exactly
    0, which is not strictly positive. *)
Lemma mfcc_to_mel_entry_underflows_to_zero :
  value_of (mfcc_to_mel_binary64 one_band_idct 0%nat {["n_mels" := PInt 1]})
    [quiet_mfcc]
  = Ok {| arr_dtype := float64; arr_shape := [1; 1]; arr_data := [0%R] |}
  ∧ ¬ positive {| arr_dtype := float64; arr_shape := [1; 1];
                  arr_data := [0%R] |}.
Proof.
  split.
  - unfold value_of.
    rewrite (mfcc_to_mel_binary64_steps one_band_idct [quiet_mfcc] 0%nat
               quiet_mfcc {["n_mels" := PInt 1]});
      [| apply (bool_decide_unpack _); vm_compute; reflexivity | reflexivity].
    change (one_band_idct quiet_mfcc _ _ _) with (Ok quiet_mfcc).
    cbv beta iota.
    change (db_to_power_binary64 quiet_mfcc _)
      with (Ok {| arr_dtype := float64; arr_shape := [1; 1];
                  arr_data := [round_binary64 (1 * Rpower 10 (-4000 / 10))] |}).
    rewrite (round_binary64_underflow _ ten_to_minus_400_underflows).
    reflexivity.
  - unfold positive. simpl. intros H. apply Forall_cons_1 in H as [H _]. lra.
Qed.

Lemma mfcc_to_mel_nonneg_witness :
  ∃ h' l mel,
    mfcc_to_mel_binary64 one_band_idct 0%nat {["n_mels" := PInt 1]} [quiet_mfcc]
    = (h', Ok l) ∧
    h' !! l = Some mel ∧
    nonneg mel.
Proof.
  apply (mfcc_to_mel_nonneg one_band_idct [quiet_mfcc] 0%nat quiet_mfcc
           {["n_mels" := PInt 1]} 1%R quiet_mfcc).
  - apply (bool_decide_unpack _). vm_compute. reflexivity.
  - reflexivity.
  - reflexivity.
  - lra.
  - reflexivity.
Defined.

Lemma mfcc_to_audio_composition_witness :
  mfcc_to_audio ones_filters_mel zero_nnls real_power echo_hop_griffinlim
    zero_idct 0%nat ({["n_mels" := PInt 2]} ∪ {["n_fft" := PInt 4]}) [M1]
  = (mel_spec <- mfcc_to_mel zero_idct 0%nat {["n_mels" := PInt 2]};;
     mel_to_audio ones_filters_mel zero_nnls real_power echo_hop_griffinlim
       mel_spec {["n_fft" := PInt 4]}) [M1].
Proof.
  apply (mfcc_to_audio_composition ones_filters_mel zero_nnls real_power
           echo_hop_griffinlim zero_idct 0%nat
           ({["n_mels" := PInt 2]} ∪ {["n_fft" := PInt 4]})
           {["n_mels" := PInt 2]} {["n_fft" := PInt 4]} [M1]).
  - reflexivity.
  - apply (bool_decide_unpack _). vm_compute. reflexivity.
  - intros k Hk.
    repeat (apply elem_of_cons in Hk as [->|Hk]; [reflexivity|]).
    by apply elem_of_nil in Hk.
  - reflexivity.
Defined.


(** ** Further properties of the four functions *)

Section more_properties.

Variable filters_mel : pyval → pyval → gmap string pyval → res ndarray.
Variable nnls : ndarray → ndarray → res ndarray.
Variable np_power : R → R → R.
Variable griffinlim : ndarray → gmap string pyval → res ndarray.
Variable idct : ndarray → pyval → pyval → pyval → res ndarray.

(** [mel_to_stft] looks at its keywords only through whether [M] is
    repeated, its three named parameters (the exponent only through
    [1./power]) and what is left for [**kwargs]. *)
Lemma mel_to_stft_ext M (kw kw' : gmap string pyval) h :
  (is_Some (kw !! "M") ↔ is_Some (kw' !! "M")) →
  param kw "sr" (PInt 22050) = param kw' "sr" (PInt 22050) →
  param kw "n_fft" (PInt 2048) = param kw' "n_fft" (PInt 2048) →
  py_one_over (param kw "power" (PFloat 2))
  = py_one_over (param kw' "power" (PFloat 2)) →
  var_keywords mel_to_stft_params kw = var_keywords mel_to_stft_params kw' →
  mel_to_stft filters_mel nnls np_power M kw h
  = mel_to_stft filters_mel nnls np_power M kw' h.
Proof.
  intros HM Hsr Hn Hp Hrest. unfold mel_to_stft, bind, bind_positional.
  rewrite Hsr, Hn, Hp, Hrest.
  destruct (decide (is_Some (kw !! "M"))) as [H1|H1];
    destruct (decide (is_Some (kw' !! "M"))) as [H2|H2]; try done.
  - exfalso. by apply H2, HM.
  - exfalso. by apply H1, HM.
Qed.

Lemma stft_keywords_of_lookup (kw : gmap string pyval) k :
  k ≠ "sr" → k ≠ "n_fft" → k ≠ "power" →
  stft_keywords_of kw !! k = var_keywords mel_to_audio_params kw !! k.
Proof.
  intros H1 H2 H3. unfold stft_keywords_of. by rewrite !lookup_insert_ne.
Qed.

Lemma stft_keywords_of_M (kw : gmap string pyval) :
  stft_keywords_of kw !! "M" = None.
Proof.
  rewrite stft_keywords_of_lookup by done.
  rewrite var_keywords_lookup. apply decide_True.
  apply (bool_decide_unpack _). by vm_compute.
Qed.

Lemma stft_keywords_of_dtype (kw : gmap string pyval) :
  stft_keywords_of kw !! "dtype" = None.
Proof.
  rewrite stft_keywords_of_lookup by done.
  rewrite var_keywords_lookup. apply decide_True.
  apply (bool_decide_unpack _). by vm_compute.
Qed.

Lemma stft_keywords_of_n_mels (kw : gmap string pyval) :
  stft_keywords_of kw !! "n_mels" = kw !! "n_mels".
Proof.
  rewrite stft_keywords_of_lookup by done.
  rewrite var_keywords_lookup. apply decide_False.
  intros Hin. revert Hin. apply (bool_decide_unpack _). by vm_compute.
Qed.

Lemma stft_keywords_of_sr (kw : gmap string pyval) d :
  param (stft_keywords_of kw) "sr" d = param kw "sr" (PInt 22050).
Proof. unfold param at 1, stft_keywords_of. by rewrite lookup_insert_eq. Qed.

Lemma stft_keywords_of_n_fft (kw : gmap string pyval) d :
  param (stft_keywords_of kw) "n_fft" d = param kw "n_fft" (PInt 2048).
Proof.
  unfold param at 1, stft_keywords_of.
  rewrite lookup_insert_ne by done. by rewrite lookup_insert_eq.
Qed.

Lemma stft_keywords_of_power (kw : gmap string pyval) d :
  param (stft_keywords_of kw) "power" d = param kw "power" (PFloat 2).
Proof.
  unfold param at 1, stft_keywords_of.
  rewrite !lookup_insert_ne by done. by rewrite lookup_insert_eq.
Qed.

(** What [mel_to_audio] leaves for the mel filter bank is what its caller
    gave beyond the parameters [mel_to_audio] names. *)
Lemma stft_keywords_of_rest (kw : gmap string pyval) :
  var_keywords mel_to_stft_params (stft_keywords_of kw)
  = var_keywords mel_to_audio_params kw.
Proof.
  apply map_eq. intros k. rewrite (var_keywords_lookup mel_to_stft_params).
  case_decide as Hk.
  - symmetry. rewrite var_keywords_lookup. apply decide_True.
    unfold mel_to_stft_params in Hk. unfold mel_to_audio_params.
    repeat (apply elem_of_cons in Hk as [->|Hk];
            [apply (bool_decide_unpack _); by vm_compute|]).
    by apply elem_of_nil in Hk.
  - apply stft_keywords_of_lookup; intros ->; apply Hk;
      apply (bool_decide_unpack _); by vm_compute.
Qed.

(** A keyword that [mel_to_stft] also passes to [filters.mel] by name makes
    the call to [filters.mel] ill-formed. *)
Lemma mel_to_stft_clash h M Mv (kw : gmap string pyval) bands dims k v :
  kw !! "M" = None →
  h !! M = Some Mv →
  arr_shape Mv = bands :: dims →
  k = "n_mels" ∨ k = "dtype" →
  kw !! k = Some v →
  mel_to_stft filters_mel nnls np_power M kw h = (h, Raise TypeError).
Proof.
  intros HM Hl Hs Hk Hv. unfold mel_to_stft, bind, bind_positional.
  rewrite HM. rewrite decide_False by (by intros [? ?]).
  cbn [ret]. unfold load at 1. rewrite Hl.
  unfold shape_at. rewrite Hs. cbn [lookup list_lookup lift ret].
  rewrite (keywords_clash _ _ k v); [done| |].
  - destruct Hk as [-> | ->]; simpl.
    + apply list_elem_of_here.
    + apply list_elem_of_further, list_elem_of_here.
  - rewrite var_keywords_lookup, decide_False; [done|].
    intros Hin. revert Hin.
    destruct Hk as [-> | ->]; apply (bool_decide_unpack _); by vm_compute.
Qed.

(** X1.  [mel_to_stft] fixes the band count and the numeric type of the mel
    basis itself: a caller who passes [n_mels] or [dtype] gets a
    [TypeError], and the store is as it was ([filters.mel] is never
    reached). *)
Theorem mel_to_stft_rejects_basis_keywords h M Mv (kw : gmap string pyval)
    bands dims :
  kw !! "M" = None →
  h !! M = Some Mv →
  arr_shape Mv = bands :: dims →
  is_Some (kw !! "n_mels") ∨ is_Some (kw !! "dtype") →
  mel_to_stft filters_mel nnls np_power M kw h = (h, Raise TypeError).
Proof.
  intros HM Hl Hs [[v Hv]|[v Hv]].
  - apply (mel_to_stft_clash h M Mv kw bands dims "n_mels" v); auto.
  - apply (mel_to_stft_clash h M Mv kw bands dims "dtype" v); auto.
Qed.

(** X2.  In [mel_to_audio] the keyword [dtype] is a parameter of its own
    and never reaches the mel filter bank, but [n_mels] is not: passing
    [n_mels] to [mel_to_audio] ends in the [TypeError] of the inner call to
    [filters.mel], with the store as it was. *)
Theorem mel_to_audio_rejects_n_mels h M Mv (kw : gmap string pyval) bands dims :
  kw !! "M" = None →
  h !! M = Some Mv →
  arr_shape Mv = bands :: dims →
  is_Some (kw !! "n_mels") →
  mel_to_audio filters_mel nnls np_power griffinlim M kw h
  = (h, Raise TypeError).
Proof.
  intros HM Hl Hs [v Hv]. rewrite mel_to_audio_steps by done.
  rewrite (mel_to_stft_clash h M Mv _ bands dims "n_mels" v);
    [done | apply stft_keywords_of_M | exact Hl | exact Hs | by left |].
  by rewrite stft_keywords_of_n_mels.
Qed.

(** X3.  An array without axes has no band count: on it [mel_to_stft] and
    [mel_to_audio] raise [IndexError] (from [M.shape[0]]) before any
    collaborator is called, whatever the keywords. *)
Theorem mel_inversion_of_scalar_array h M Mv (kw : gmap string pyval) :
  kw !! "M" = None →
  h !! M = Some Mv →
  arr_shape Mv = [] →
  mel_to_stft filters_mel nnls np_power M kw h = (h, Raise IndexError) ∧
  mel_to_audio filters_mel nnls np_power griffinlim M kw h
  = (h, Raise IndexError).
Proof.
  intros HM Hl Hs.
  assert (∀ kw' : gmap string pyval, kw' !! "M" = None →
            mel_to_stft filters_mel nnls np_power M kw' h
            = (h, Raise IndexError)) as Hstft.
  { intros kw' HM'. unfold mel_to_stft, bind, bind_positional.
    rewrite HM'. rewrite decide_False by (by intros [? ?]).
    cbn [ret]. unfold load at 1. rewrite Hl.
    unfold shape_at. by rewrite Hs. }
  split; [by apply Hstft|].
  rewrite mel_to_audio_steps by done.
  by rewrite Hstft by apply stft_keywords_of_M.
Qed.

Lemma py_one_over_int z :
  Z.abs z < float_int_bound →
  py_one_over (PInt z) = py_one_over (PFloat (IZR z)).
Proof.
  intros Hz. simpl. rewrite decide_False by lia.
  destruct (decide (z = 0)) as [->|Hz0].
  - by rewrite decide_True.
  - rewrite decide_False; [done|]. by apply not_0_IZR.
Qed.

(** X4.  The exponent may be given as a Python integer that converts to a
    float (its magnitude is below [2^1024 - 2^970]): [power=z] and
    [power=float(z)] make [mel_to_stft] do exactly the same, zero included
    (both raise [ZeroDivisionError]). *)
Theorem mel_to_stft_integer_power M (kw : gmap string pyval) z h :
  Z.abs z < float_int_bound →
  mel_to_stft filters_mel nnls np_power M (<["power" := PInt z]> kw) h
  = mel_to_stft filters_mel nnls np_power M (<["power" := PFloat (IZR z)]> kw) h.
Proof.
  intros Hz. apply mel_to_stft_ext.
  - by rewrite !lookup_insert_ne.
  - unfold param. by rewrite !lookup_insert_ne.
  - unfold param. by rewrite !lookup_insert_ne.
  - unfold param. rewrite !lookup_insert_eq. by apply py_one_over_int.
  - apply map_eq. intros k. rewrite !var_keywords_lookup.
    case_decide as Hk; [done|]. rewrite !lookup_insert_ne; [done| |].
    + intros <-. apply Hk. apply (bool_decide_unpack _). by vm_compute.
    + intros <-. apply Hk. apply (bool_decide_unpack _). by vm_compute.
Qed.

(** X5.  [mel_to_stft] catches nothing: on a well-formed call, an exception
    of [filters.mel] reaches the caller as it is, with the store untouched
    and the solver not consulted; an exception of [nnls] reaches the caller
    as it is, the basis being the only new buffer. *)
Theorem mel_to_stft_collaborator_errors h M Mv (kw : gmap string pyval)
    bands dims :
  kw !! "M" = None → kw !! "n_mels" = None → kw !! "dtype" = None →
  h !! M = Some Mv →
  arr_shape Mv = bands :: dims →
  (∀ err,
     filters_mel (param kw "sr" (PInt 22050)) (param kw "n_fft" (PInt 2048))
       (<["n_mels" := PInt bands]>
          (<["dtype" := PDtype (arr_dtype Mv)]>
             (var_keywords mel_to_stft_params kw))) = Raise err →
     mel_to_stft filters_mel nnls np_power M kw h = (h, Raise err)) ∧
  (∀ B err,
     filters_mel (param kw "sr" (PInt 22050)) (param kw "n_fft" (PInt 2048))
       (<["n_mels" := PInt bands]>
          (<["dtype" := PDtype (arr_dtype Mv)]>
             (var_keywords mel_to_stft_params kw))) = Ok B →
     nnls B Mv = Raise err →
     mel_to_stft filters_mel nnls np_power M kw h = (h ++ [B], Raise err)).
Proof.
  intros HM Hn Hd Hl Hs. split.
  - intros err HB.
    by rewrite (mel_to_stft_steps _ _ _ _ _ _ _ _ _ HM Hn Hd Hl Hs), HB.
  - intros B err HB HX.
    by rewrite (mel_to_stft_steps _ _ _ _ _ _ _ _ _ HM Hn Hd Hl Hs), HB, HX.
Qed.

(** X6.  [mel_to_audio] is [mel_to_stft] followed by [griffinlim]: for every
    split of the keywords [kw] into those of the phase reconstruction [kw_b]
    (hop and window lengths, window, centering, padding mode, iteration
    count, length, dtype) and the others [kw_a],
    [mel_to_audio(M, **kw)] is [mel_to_stft(M, **kw_a)] followed by
    [griffinlim] on its result, with the eight keywords that [mel_to_audio]
    fills from [kw_b] and its own defaults. *)
Theorem mel_to_audio_composition M (kw kw_a kw_b : gmap string pyval) h :
  kw = kw_a ∪ kw_b →
  dom kw_b ⊆ list_to_set (C := gset string) griffinlim_params →
  (∀ k, k ∈ griffinlim_params → kw_a !! k = None) →
  kw !! "M" = None →
  mel_to_audio filters_mel nnls np_power griffinlim M kw h
  = (stft <- mel_to_stft filters_mel nnls np_power M kw_a;;
     magnitudes <- load stft;;
     call (griffinlim magnitudes (griffinlim_keywords_of kw_b))) h.
Proof.
  intros -> Hb Ha HM.
  apply lookup_union_None in HM as [HMa HMb].
  assert (∀ k, k ∉ griffinlim_params → kw_b !! k = None) as Hb'.
  { intros k Hk. apply not_elem_of_dom. intros Hin. apply Hb in Hin.
    by apply elem_of_list_to_set in Hin. }
  assert (∀ k d, bool_decide (k ∉ griffinlim_params) →
            param (kw_a ∪ kw_b) k d = param kw_a k d) as Hpa.
  { intros k d Hk%bool_decide_unpack. unfold param.
    by rewrite lookup_union_l by (by apply Hb'). }
  assert (∀ k d, bool_decide (k ∈ griffinlim_params) →
            param (kw_a ∪ kw_b) k d = param kw_b k d) as Hpb.
  { intros k d Hk%bool_decide_unpack. unfold param.
    by rewrite lookup_union_r by (by apply Ha). }
  rewrite mel_to_audio_steps by (by apply lookup_union_None).
  assert (griffinlim_keywords_of (kw_a ∪ kw_b) = griffinlim_keywords_of kw_b)
    as ->.
  { unfold griffinlim_keywords_of. by rewrite !Hpb by done. }
  rewrite (mel_to_stft_ext M (stft_keywords_of (kw_a ∪ kw_b)) kw_a).
  - unfold bind at 1.
    destruct (mel_to_stft _ _ _ _ _ _) as [h' [stft|err]]; [|done].
    unfold bind, load. destruct (h' !! stft) as [magnitudes|]; [|done].
    unfold call, bind. by destruct (griffinlim _ _).
  - rewrite stft_keywords_of_M, HMa. done.
  - rewrite stft_keywords_of_sr. by apply Hpa.
  - rewrite stft_keywords_of_n_fft. by apply Hpa.
  - rewrite stft_keywords_of_power. by rewrite Hpa.
  - rewrite stft_keywords_of_rest. apply map_eq. intros k.
    rewrite !var_keywords_lookup.
    destruct (decide (k ∈ griffinlim_params)) as [Hg|Hg].
    + rewrite decide_True.
      * case_decide; [done|]. symmetry. by apply Ha.
      * unfold griffinlim_params in Hg. unfold mel_to_audio_params.
        repeat (apply elem_of_cons in Hg as [->|Hg];
                [apply (bool_decide_unpack _); by vm_compute|]).
        by apply elem_of_nil in Hg.
    + rewrite lookup_union_l by (by apply Hb').
      destruct (decide (k ∈ mel_to_stft_params)) as [Hs|Hs].
      * rewrite decide_True; [done|].
        unfold mel_to_stft_params in Hs. unfold mel_to_audio_params.
        repeat (apply elem_of_cons in Hs as [->|Hs];
                [apply (bool_decide_unpack _); by vm_compute|]).
        by apply elem_of_nil in Hs.
      * rewrite decide_False; [done|]. intros Hin. unfold mel_to_audio_params in Hin.
        repeat (apply elem_of_cons in Hin as [->|Hin];
                [first [ by (apply Hs, (bool_decide_unpack _); vm_compute)
                       | by (apply Hg, (bool_decide_unpack _); vm_compute) ]|]).
        by apply elem_of_nil in Hin.
Qed.

(** X7.  [mfcc_to_mel] has no [**kwargs]: a call with any keyword other than
    [n_mels], [dct_type], [norm] and [ref] raises [TypeError] and leaves the
    store as it was; the inverse DCT is not called. *)
Theorem mfcc_to_mel_rejects_other_keywords h mfcc (kw : gmap string pyval) :
  ¬ dom kw ⊆ list_to_set (C := gset string) cepstral_params →
  mfcc_to_mel idct mfcc kw h = (h, Raise TypeError).
Proof.
  intros Hdom. unfold mfcc_to_mel, bind, bind_positional, no_var_keywords.
  destruct (decide (is_Some (kw !! "mfcc"))) as [Hm|Hm]; [done|].
  cbn [ret]. rewrite decide_False; [done|].
  intros Hsub. apply Hdom. intros k Hk.
  specialize (Hsub k Hk). unfold mfcc_to_mel_params in Hsub.
  rewrite list_to_set_cons in Hsub.
  apply elem_of_union in Hsub as [->%elem_of_singleton|Hsub]; [|done].
  exfalso. by apply Hm, elem_of_dom.
Qed.

(** *** The result is a new array *)

Lemma returns_new_call r : returns_new (call r).
Proof.
  intros h h' l. unfold call, bind.
  destruct r as [a|err]; cbn [lift ret raise alloc]; [|done].
  intros [= <- <-]. rewrite length_app. simpl. lia.
Qed.

Lemma returns_new_bind {A} (m : Py A) (k : A → Py loc) :
  extends m → (∀ a, returns_new (k a)) → returns_new (bind m k).
Proof.
  intros Hm Hk h h' l. unfold bind. destruct (Hm h) as [created Hc].
  destruct (m h) as [h1 [a|err]]; [|done]. simpl in Hc. subst h1.
  intros Hrun. apply Hk in Hrun. rewrite length_app in Hrun. lia.
Qed.

Lemma returns_new_solve_then_power (solution : res ndarray) (exponent : res R) :
  returns_new (inverse <- call solution;;
               e <- lift exponent;;
               np_power_inplace np_power inverse e).
Proof.
  intros h h' l. unfold call, bind.
  destruct solution as [X|err]; cbn [lift ret raise alloc]; [|done].
  destruct exponent as [e|err]; cbn [lift ret raise]; [|done].
  unfold np_power_inplace, bind, load, store, ret.
  rewrite load_alloc_new, store_new. intros [= <- <-].
  rewrite length_app. simpl. lia.
Qed.

Lemma mel_to_stft_returns_new M (kw : gmap string pyval) :
  returns_new (mel_to_stft filters_mel nnls np_power M kw).
Proof.
  unfold mel_to_stft.
  apply returns_new_bind; [apply extends_bind_positional | intros _].
  apply returns_new_bind; [apply extends_load | intros Mv].
  apply returns_new_bind; [apply extends_lift | intros n_mels].
  apply returns_new_bind; [apply extends_lift | intros kw_mel].
  apply returns_new_bind; [apply extends_call | intros mel_basis].
  apply returns_new_bind; [apply extends_load | intros A].
  apply returns_new_bind; [apply extends_load | intros B].
  apply returns_new_solve_then_power.
Qed.

Lemma mel_to_audio_returns_new M (kw : gmap string pyval) :
  returns_new (mel_to_audio filters_mel nnls np_power griffinlim M kw).
Proof.
  unfold mel_to_audio.
  apply returns_new_bind; [apply extends_bind_positional | intros _].
  apply returns_new_bind; [apply extends_lift | intros kw_stft].
  apply returns_new_bind; [apply mel_to_stft_extends | intros stft].
  apply returns_new_bind; [apply extends_load | intros magnitudes].
  apply returns_new_call.
Qed.

Lemma mfcc_to_mel_returns_new mfcc (kw : gmap string pyval) :
  returns_new (mfcc_to_mel idct mfcc kw).
Proof.
  unfold mfcc_to_mel.
  apply returns_new_bind; [apply extends_bind_positional | intros _].
  apply returns_new_bind; [apply extends_no_var_keywords | intros _].
  apply returns_new_bind; [apply extends_load | intros x].
  apply returns_new_bind; [apply extends_call | intros logmel].
  apply returns_new_bind; [apply extends_load | intros S_db].
  apply returns_new_call.
Qed.

(** X8.  Whatever the keywords, an array returned by one of the four
    functions is a buffer that the call created: the reference lies past the
    store the call found (so it is never the input array, nor any other
    array of the caller) and inside the store the call leaves. *)
Theorem results_are_new :
  result_is_new (mel_to_stft filters_mel nnls np_power) ∧
  result_is_new (mel_to_audio filters_mel nnls np_power griffinlim) ∧
  result_is_new (mfcc_to_mel idct) ∧
  result_is_new (mfcc_to_audio filters_mel nnls np_power griffinlim idct).
Proof.
  split; [|split; [|split]]; intros M kw.
  - apply mel_to_stft_returns_new.
  - apply mel_to_audio_returns_new.
  - apply mfcc_to_mel_returns_new.
  - unfold mfcc_to_audio.
    apply returns_new_bind; [apply extends_bind_positional | intros _].
    apply returns_new_bind; [apply mfcc_to_mel_extends | intros mel_spec].
    apply mel_to_audio_returns_new.
Qed.

(** *** From mel spectrogram, and from MFCCs, to the phase reconstruction *)

(** A call of [mel_to_audio] whose input the basis constructor and the
    solver accept reaches [griffinlim] with the outcome of [mel_to_stft]. *)
Lemma mel_to_audio_run h M Mv (kw : gmap string pyval) bands dims B X e :
  kw !! "M" = None → kw !! "n_mels" = None →
  h !! M = Some Mv →
  arr_shape Mv = bands :: dims →
  filters_mel (param kw "sr" (PInt 22050)) (param kw "n_fft" (PInt 2048))
    (<["n_mels" := PInt bands]>
       (<["dtype" := PDtype (arr_dtype Mv)]>
          (var_keywords mel_to_audio_params kw))) = Ok B →
  nnls B Mv = Ok X →
  py_one_over (param kw "power" (PFloat 2)) = Ok e →
  mel_to_audio filters_mel nnls np_power griffinlim M kw h =
    match griffinlim (arr_map (λ x, np_power x e) X) (griffinlim_keywords_of kw) with
    | Ok y => (h ++ [B; arr_map (λ x, np_power x e) X; y], Ok (S (S (length h))))
    | Raise err => (h ++ [B; arr_map (λ x, np_power x e) X], Raise err)
    end.
Proof.
  intros HM Hn Hl Hs HB HX He.
  rewrite mel_to_audio_steps by done.
  rewrite (mel_to_stft_steps filters_mel nnls np_power h M Mv
             (stft_keywords_of kw) bands dims);
    [| apply stft_keywords_of_M
     | by rewrite stft_keywords_of_n_mels
     | apply stft_keywords_of_dtype
     | exact Hl | exact Hs].
  rewrite stft_keywords_of_sr, stft_keywords_of_n_fft, stft_keywords_of_power,
    stft_keywords_of_rest, HB, HX, He.
  rewrite (lookup_app_r h) by lia.
  replace (S (length h) - length h)%nat with 1%nat by lia. cbn [lookup list_lookup].
  destruct (griffinlim _ _) as [y|err]; [|done].
  rewrite length_app. cbn [length]. rewrite <- app_assoc. simpl.
  by replace (length h + 2)%nat with (S (S (length h))) by lia.
Qed.

(** X9.  What [mel_to_audio] hands to the phase reconstruction.  For [M] of
    shape [(n_mels, T)] and [n_fft = F] that the basis constructor and the
    solver accept, and a positive [power] (a float, or an integer that
    converts to one), whatever the [dtype] keyword says (it goes to
    [griffinlim] only), the mel basis takes the numeric type of [M],
    [griffinlim] receives a spectrogram of shape [(F//2+1, T)], and its
    answer, array or exception, is the answer of [mel_to_audio]. *)
Theorem mel_to_audio_magnitudes h M Mv (kw : gmap string pyval) n_mels T F B X :
  mel_basis_contract filters_mel →
  nnls_shape_contract nnls →
  kw !! "M" = None → kw !! "n_mels" = None →
  h !! M = Some Mv →
  arr_shape Mv = [n_mels; T] →
  param kw "n_fft" (PInt 2048) = PInt F →
  filters_mel (param kw "sr" (PInt 22050)) (PInt F)
    (<["n_mels" := PInt n_mels]>
       (<["dtype" := PDtype (arr_dtype Mv)]>
          (var_keywords mel_to_audio_params kw))) = Ok B →
  nnls B Mv = Ok X →
  py_positive (param kw "power" (PFloat 2)) →
  ∃ magnitudes,
    arr_dtype B = arr_dtype Mv ∧
    arr_shape magnitudes = [F / 2 + 1; T] ∧
    mel_to_audio filters_mel nnls np_power griffinlim M kw h =
      match griffinlim magnitudes (griffinlim_keywords_of kw) with
      | Ok y => (h ++ [B; magnitudes; y], Ok (S (S (length h))))
      | Raise err => (h ++ [B; magnitudes], Raise err)
      end.
Proof.
  intros Hmel Hnnls HM Hn Hl Hs HF HB HX Hp.
  destruct (Hmel _ _ _ _ _ _ (mel_keywords_n_mels _ _ _)
              (mel_keywords_dtype _ _ _) HB) as (HsB & HdB & _).
  pose proof (Hnnls B Mv X _ _ _ HsB Hs HX) as HsX.
  destruct (py_one_over_positive _ Hp) as (e & He & _).
  exists (arr_map (λ x, np_power x e) X). split; [done|]. split; [done|].
  apply (mel_to_audio_run h M Mv kw n_mels [T] B X e); try done.
  by rewrite HF.
Qed.

Lemma var_keywords_app named named' (kw : gmap string pyval) :
  var_keywords named' (var_keywords named kw) = var_keywords (named ++ named') kw.
Proof.
  apply map_eq. intros k. rewrite (var_keywords_lookup named').
  rewrite (var_keywords_lookup (named ++ named')), (var_keywords_lookup named).
  destruct (decide (k ∈ named')) as [H2|H2];
    destruct (decide (k ∈ named)) as [H1|H1];
    destruct (decide (k ∈ named ++ named')) as [H3|H3]; try done.
  - exfalso. apply H3, elem_of_app. by right.
  - exfalso. apply H3, elem_of_app. by right.
  - exfalso. apply H3, elem_of_app. by left.
  - exfalso. apply elem_of_app in H3 as [?|?]; done.
Qed.

(** Every path through the cepstral part of [mfcc_to_audio]. *)
Lemma mfcc_to_audio_steps h mfcc x (kw : gmap string pyval) :
  kw !! "mfcc" = None →
  h !! mfcc = Some x →
  mfcc_to_audio filters_mel nnls np_power griffinlim idct mfcc kw h =
    match idct x (param kw "dct_type" (PInt 2)) (param kw "norm" (PStr "ortho"))
               (param kw "n_mels" (PInt 128)) with
    | Raise err => (h, Raise err)
    | Ok logmel =>
        match db_to_power logmel (param kw "ref" (PFloat 1)) with
        | Raise err => (h ++ [logmel], Raise err)
        | Ok mel =>
            mel_to_audio filters_mel nnls np_power griffinlim (S (length h))
              (var_keywords mfcc_to_mel_params kw) (h ++ [logmel; mel])
        end
    end.
Proof.
  intros Hm Hl. unfold mfcc_to_audio, bind at 1, bind_positional.
  rewrite Hm. rewrite decide_False by (by intros [? ?]). cbn [ret].
  unfold bind at 1.
  rewrite (mfcc_to_mel_steps idct h mfcc x); [| by rewrite dom_list_to_map_L | done].
  change (param (list_to_map _) "dct_type" (PInt 2))
    with (param kw "dct_type" (PInt 2)).
  change (param (list_to_map _) "norm" (PStr "ortho"))
    with (param kw "norm" (PStr "ortho")).
  change (param (list_to_map _) "n_mels" (PInt 128))
    with (param kw "n_mels" (PInt 128)).
  change (param (list_to_map _) "ref" (PFloat 1))
    with (param kw "ref" (PFloat 1)).
  destruct (idct _ _ _ _) as [logmel|err]; [|done].
  by destruct (db_to_power _ _) as [mel|err].
Qed.

(** X10.  [mfcc_to_audio] catches nothing and stops at the first failure:
    an exception of the inverse DCT reaches the caller as it is with the
    store untouched, and an exception of the decibel conversion (a reference
    that is neither a number nor a callable) reaches the caller with the
    log-mel array as the only new buffer; in both cases nothing of the mel
    inversion runs, whatever the other keywords are. *)
Theorem mfcc_to_audio_cepstral_errors h mfcc x (kw : gmap string pyval) :
  kw !! "mfcc" = None →
  h !! mfcc = Some x →
  (∀ err,
     idct x (param kw "dct_type" (PInt 2)) (param kw "norm" (PStr "ortho"))
            (param kw "n_mels" (PInt 128)) = Raise err →
     mfcc_to_audio filters_mel nnls np_power griffinlim idct mfcc kw h
     = (h, Raise err)) ∧
  (∀ logmel err,
     idct x (param kw "dct_type" (PInt 2)) (param kw "norm" (PStr "ortho"))
            (param kw "n_mels" (PInt 128)) = Ok logmel →
     db_to_power logmel (param kw "ref" (PFloat 1)) = Raise err →
     mfcc_to_audio filters_mel nnls np_power griffinlim idct mfcc kw h
     = (h ++ [logmel], Raise err)).
Proof.
  intros Hm Hl. split.
  - intros err Hidct. by rewrite (mfcc_to_audio_steps h mfcc x), Hidct.
  - intros logmel err Hidct Hdb.
    by rewrite (mfcc_to_audio_steps h mfcc x), Hidct, Hdb.
Qed.

Lemma param_var_keywords named (kw : gmap string pyval) k d :
  bool_decide (k ∉ named) → param (var_keywords named kw) k d = param kw k d.
Proof.
  intros Hk%bool_decide_unpack. unfold param.
  by rewrite var_keywords_lookup, decide_False.
Qed.

Lemma db_to_power_shape logmel ref mel :
  db_to_power logmel ref = Ok mel → arr_shape mel = arr_shape logmel.
Proof.
  unfold db_to_power. destruct (ref_value ref logmel); [|done].
  by intros [= <-].
Qed.

(** X11.  The band count travels through [mfcc_to_audio]: with
    [n_mels = n], MFCCs of shape [(coefficients, frames)] and [n_fft = F]
    that the inverse DCT, the basis constructor and the solver accept, and
    a positive [power] (a float, or an integer that converts to one),
    the mel spectrum has shape [(n, frames)], the mel basis is requested
    with [n] bands (the keyword [n_mels] itself is not forwarded, the count
    is read off the mel spectrum) and has shape [(n, F//2+1)], and
    [griffinlim] receives a spectrogram of shape [(F//2+1, frames)]; the
    answer of [griffinlim], array or exception, is the answer of
    [mfcc_to_audio], after four buffers of its own. *)
Theorem mfcc_to_audio_band_count h mfcc x (kw : gmap string pyval)
    coeffs frames n logmel mel F B X :
  idct_shape_contract idct →
  mel_basis_contract filters_mel →
  nnls_shape_contract nnls →
  kw !! "mfcc" = None → kw !! "M" = None →
  h !! mfcc = Some x →
  arr_shape x = [coeffs; frames] →
  param kw "n_mels" (PInt 128) = PInt n →
  idct x (param kw "dct_type" (PInt 2)) (param kw "norm" (PStr "ortho"))
         (PInt n) = Ok logmel →
  db_to_power logmel (param kw "ref" (PFloat 1)) = Ok mel →
  param kw "n_fft" (PInt 2048) = PInt F →
  filters_mel (param kw "sr" (PInt 22050)) (PInt F)
    (<["n_mels" := PInt n]>
       (<["dtype" := PDtype (arr_dtype mel)]>
          (var_keywords (mfcc_to_mel_params ++ mel_to_audio_params) kw)))
  = Ok B →
  nnls B mel = Ok X →
  py_positive (param kw "power" (PFloat 2)) →
  ∃ magnitudes,
    arr_shape mel = [n; frames] ∧
    arr_shape B = [n; F / 2 + 1] ∧
    arr_shape magnitudes = [F / 2 + 1; frames] ∧
    mfcc_to_audio filters_mel nnls np_power griffinlim idct mfcc kw h =
      match griffinlim magnitudes (griffinlim_keywords_of kw) with
      | Ok y => (h ++ [logmel; mel; B; magnitudes; y], Ok (length h + 4)%nat)
      | Raise err => (h ++ [logmel; mel; B; magnitudes], Raise err)
      end.
Proof.
  intros Hidct Hmel Hnnls Hm HM Hl Hs Hn Hlog Hdb HF HB HX Hp.
  assert (arr_shape mel = [n; frames]) as Hsmel.
  { rewrite (db_to_power_shape _ _ _ Hdb). exact (Hidct _ _ _ _ _ _ _ Hs Hlog). }
  destruct (Hmel _ _ _ _ _ _ (mel_keywords_n_mels _ _ _)
              (mel_keywords_dtype _ _ _) HB) as (HsB & _ & _).
  pose proof (Hnnls B mel X _ _ _ HsB Hsmel HX) as HsX.
  destruct (py_one_over_positive _ Hp) as (e & He & _).
  exists (arr_map (λ v, np_power v e) X).
  split; [done|]. split; [done|]. split; [done|].
  rewrite (mfcc_to_audio_steps h mfcc x) by done.
  rewrite Hn, Hlog, Hdb.
  rewrite (mel_to_audio_run (h ++ [logmel; mel]) (S (length h)) mel
             (var_keywords mfcc_to_mel_params kw) n [frames] B X e).
  - assert (griffinlim_keywords_of (var_keywords mfcc_to_mel_params kw)
            = griffinlim_keywords_of kw) as ->.
    { unfold griffinlim_keywords_of. by rewrite !param_var_keywords by done. }
    rewrite length_app. cbn [length].
    replace (S (S (length h + 2))) with (length h + 4)%nat by lia.
    destruct (griffinlim _ _) as [y|err]; by rewrite <- app_assoc.
  - by apply var_keywords_None.
  - rewrite var_keywords_lookup. apply decide_True.
    apply (bool_decide_unpack _). by vm_compute.
  - rewrite (lookup_app_r h) by lia.
    by replace (S (length h) - length h)%nat with 1%nat by lia.
  - done.
  - rewrite !param_var_keywords by done. rewrite var_keywords_app, HF. exact HB.
  - done.
  - by rewrite param_var_keywords.
Qed.

Lemma py_one_over_divisor v : py_divisor v ↔ ∃ e, py_one_over v = Ok e.
Proof.
  destruct v as [|[]|z|r| | |]; simpl; split; try done;
    try (by intros [? ?]); try (by eexists).
  - intros [Hz Hb]. rewrite decide_False by lia.
    rewrite decide_False by done. by eexists.
  - intros [e He].
    destruct (decide (float_int_bound ≤ Z.abs z)); [done|].
    destruct (decide (z = 0)); [done|]. split; [done|lia].
  - intros Hr. rewrite decide_False by done. by eexists.
  - intros [e He] ->. by rewrite decide_True in He.
Qed.

(** X12.  The exponent is checked by the division [1./power] alone, and
    only after the solve: on a well-formed call that the basis constructor
    and the solver accept, with [power] a built-in Python value,
    [mel_to_stft] returns an array exactly when [power] is a number other
    than zero which, when an integer, converts to a float.  A negative
    exponent is accepted like a positive one. *)
Theorem mel_to_stft_returns_iff h M Mv (kw : gmap string pyval) bands dims B X :
  kw !! "M" = None → kw !! "n_mels" = None → kw !! "dtype" = None →
  h !! M = Some Mv →
  arr_shape Mv = bands :: dims →
  filters_mel (param kw "sr" (PInt 22050)) (param kw "n_fft" (PInt 2048))
    (<["n_mels" := PInt bands]>
       (<["dtype" := PDtype (arr_dtype Mv)]>
          (var_keywords mel_to_stft_params kw))) = Ok B →
  nnls B Mv = Ok X →
  (∃ h' l, mel_to_stft filters_mel nnls np_power M kw h = (h', Ok l))
  ↔ py_divisor (param kw "power" (PFloat 2)).
Proof.
  intros HM Hn Hd Hl Hs HB HX.
  rewrite (mel_to_stft_steps _ _ _ _ _ _ _ _ _ HM Hn Hd Hl Hs), HB, HX.
  rewrite py_one_over_divisor. split.
  - intros (h' & l & Hrun). destruct (py_one_over _) as [e|]; [by eexists|done].
  - intros [e ->]. by eexists _, _.
Qed.

(** X13.  A keyword [M] given to [mfcc_to_audio] is refused only by the
    inner call to [mel_to_audio], which already has its positional [M]: the
    [TypeError] comes after the cepstral inversion has run and created its
    two buffers. *)
Theorem mfcc_to_audio_keyword_M h mfcc x (kw : gmap string pyval) logmel mel :
  kw !! "mfcc" = None →
  is_Some (kw !! "M") →
  h !! mfcc = Some x →
  idct x (param kw "dct_type" (PInt 2)) (param kw "norm" (PStr "ortho"))
         (param kw "n_mels" (PInt 128)) = Ok logmel →
  db_to_power logmel (param kw "ref" (PFloat 1)) = Ok mel →
  mfcc_to_audio filters_mel nnls np_power griffinlim idct mfcc kw h
  = (h ++ [logmel; mel], Raise TypeError).
Proof.
  intros Hm [v HM] Hl Hlog Hdb.
  rewrite (mfcc_to_audio_steps h mfcc x), Hlog, Hdb by done.
  unfold mel_to_audio, bind, bind_positional.
  rewrite decide_True; [done|]. exists v.
  rewrite var_keywords_lookup, decide_False; [done|].
  intros Hin. revert Hin. apply (bool_decide_unpack _). by vm_compute.
Qed.

End more_properties.

(** ** The further properties at concrete inputs *)

Lemma mel_to_stft_rejects_basis_keywords_witness :
  mel_to_stft ones_filters_mel zero_nnls real_power 0%nat
    {["n_mels" := PInt 3]} [M1] = ([M1], Raise TypeError).
Proof.
  apply (mel_to_stft_rejects_basis_keywords ones_filters_mel zero_nnls
           real_power [M1] 0%nat M1 {["n_mels" := PInt 3]} 1 [1]).
  - reflexivity.
  - reflexivity.
  - reflexivity.
  - left. exists (PInt 3). reflexivity.
Defined.

Lemma mel_to_audio_rejects_n_mels_witness :
  mel_to_audio ones_filters_mel zero_nnls real_power echo_hop_griffinlim 0%nat
    {["n_mels" := PInt 3]} [M1] = ([M1], Raise TypeError).
Proof.
  apply (mel_to_audio_rejects_n_mels ones_filters_mel zero_nnls real_power
           echo_hop_griffinlim [M1] 0%nat M1 {["n_mels" := PInt 3]} 1 [1]).
  - reflexivity.
  - reflexivity.
  - reflexivity.
  - exists (PInt 3). reflexivity.
Defined.

Lemma mel_inversion_of_scalar_array_witness :
  mel_to_stft ones_filters_mel zero_nnls real_power 0%nat ∅ [scalar_array]
  = ([scalar_array], Raise IndexError) ∧
  mel_to_audio ones_filters_mel zero_nnls real_power echo_hop_griffinlim 0%nat
    ∅ [scalar_array] = ([scalar_array], Raise IndexError).
Proof.
  apply (mel_inversion_of_scalar_array ones_filters_mel zero_nnls real_power
           echo_hop_griffinlim [scalar_array] 0%nat scalar_array ∅).
  - reflexivity.
  - reflexivity.
  - reflexivity.
Defined.

Lemma mel_to_stft_collaborator_errors_witness :
  (∀ err,
     ones_filters_mel (param {["n_fft" := PStr "4"]} "sr" (PInt 22050))
       (param {["n_fft" := PStr "4"]} "n_fft" (PInt 2048))
       (<["n_mels" := PInt 1]>
          (<["dtype" := PDtype (arr_dtype M1)]>
             (var_keywords mel_to_stft_params {["n_fft" := PStr "4"]})))
     = Raise err →
     mel_to_stft ones_filters_mel zero_nnls real_power 0%nat
       {["n_fft" := PStr "4"]} [M1] = ([M1], Raise err)) ∧
  (∀ B err,
     ones_filters_mel (param {["n_fft" := PStr "4"]} "sr" (PInt 22050))
       (param {["n_fft" := PStr "4"]} "n_fft" (PInt 2048))
       (<["n_mels" := PInt 1]>
          (<["dtype" := PDtype (arr_dtype M1)]>
             (var_keywords mel_to_stft_params {["n_fft" := PStr "4"]})))
     = Ok B →
     zero_nnls B M1 = Raise err →
     mel_to_stft ones_filters_mel zero_nnls real_power 0%nat
       {["n_fft" := PStr "4"]} [M1] = ([M1] ++ [B], Raise err)).
Proof.
  apply (mel_to_stft_collaborator_errors ones_filters_mel zero_nnls real_power
           [M1] 0%nat M1 {["n_fft" := PStr "4"]} 1 [1]).
  - reflexivity.
  - reflexivity.
  - reflexivity.
  - reflexivity.
  - reflexivity.
Defined.

Lemma mel_to_audio_composition_witness :
  mel_to_audio ones_filters_mel zero_nnls real_power echo_hop_griffinlim 0%nat
    ({["n_fft" := PInt 4]} ∪ {["hop_length" := PInt 1]}) [M1]
  = (stft <- mel_to_stft ones_filters_mel zero_nnls real_power 0%nat
               {["n_fft" := PInt 4]};;
     magnitudes <- load stft;;
     call (echo_hop_griffinlim magnitudes
             (griffinlim_keywords_of {["hop_length" := PInt 1]}))) [M1].
Proof.
  apply (mel_to_audio_composition ones_filters_mel zero_nnls real_power
           echo_hop_griffinlim 0%nat
           ({["n_fft" := PInt 4]} ∪ {["hop_length" := PInt 1]})
           {["n_fft" := PInt 4]} {["hop_length" := PInt 1]} [M1]).
  - reflexivity.
  - apply (bool_decide_unpack _). vm_compute. reflexivity.
  - intros k Hk. unfold griffinlim_params in Hk.
    repeat (apply elem_of_cons in Hk as [->|Hk]; [reflexivity|]).
    by apply elem_of_nil in Hk.
  - reflexivity.
Defined.

Lemma mfcc_to_mel_rejects_other_keywords_witness :
  mfcc_to_mel zero_idct 0%nat {["sr" := PInt 8000]} [M1]
  = ([M1], Raise TypeError).
Proof.
  apply (mfcc_to_mel_rejects_other_keywords zero_idct [M1] 0%nat
           {["sr" := PInt 8000]}).
  apply (bool_decide_unpack _). vm_compute. reflexivity.
Defined.

Lemma mel_to_audio_magnitudes_witness :
  ∃ magnitudes,
    arr_dtype (constant_array float64 [1; 3] 1%R) = arr_dtype M1 ∧
    arr_shape magnitudes = [4 / 2 + 1; 1] ∧
    mel_to_audio ones_filters_mel zero_nnls real_power echo_hop_griffinlim
      0%nat (<["dtype" := PDtype float32]> {["n_fft" := PInt 4]}) [M1] =
      match echo_hop_griffinlim magnitudes
              (griffinlim_keywords_of
                 (<["dtype" := PDtype float32]> {["n_fft" := PInt 4]})) with
      | Ok y => ([M1] ++ [constant_array float64 [1; 3] 1%R; magnitudes; y],
                 Ok (S (S (length [M1]))))
      | Raise err => ([M1] ++ [constant_array float64 [1; 3] 1%R; magnitudes],
                      Raise err)
      end.
Proof.
  apply (mel_to_audio_magnitudes ones_filters_mel zero_nnls real_power
           echo_hop_griffinlim [M1] 0%nat M1
           (<["dtype" := PDtype float32]> {["n_fft" := PInt 4]}) 1 1 4
           (constant_array float64 [1; 3] 1%R)
           (constant_array float64 [3; 1] 0%R)).
  - exact ones_filters_mel_contract.
  - exact zero_nnls_shape.
  - reflexivity.
  - reflexivity.
  - reflexivity.
  - reflexivity.
  - reflexivity.
  - reflexivity.
  - reflexivity.
  - vm_compute. lra.
Defined.

Lemma mfcc_to_audio_cepstral_errors_witness :
  (∀ err,
     zero_idct M1 (param {["dct_type" := PInt 1]} "dct_type" (PInt 2))
       (param {["dct_type" := PInt 1]} "norm" (PStr "ortho"))
       (param {["dct_type" := PInt 1]} "n_mels" (PInt 128)) = Raise err →
     mfcc_to_audio ones_filters_mel zero_nnls real_power echo_hop_griffinlim
       zero_idct 0%nat {["dct_type" := PInt 1]} [M1] = ([M1], Raise err)) ∧
  (∀ logmel err,
     zero_idct M1 (param {["dct_type" := PInt 1]} "dct_type" (PInt 2))
       (param {["dct_type" := PInt 1]} "norm" (PStr "ortho"))
       (param {["dct_type" := PInt 1]} "n_mels" (PInt 128)) = Ok logmel →
     db_to_power logmel (param {["dct_type" := PInt 1]} "ref" (PFloat 1))
     = Raise err →
     mfcc_to_audio ones_filters_mel zero_nnls real_power echo_hop_griffinlim
       zero_idct 0%nat {["dct_type" := PInt 1]} [M1]
     = ([M1] ++ [logmel], Raise err)).
Proof.
  apply (mfcc_to_audio_cepstral_errors ones_filters_mel zero_nnls real_power
           echo_hop_griffinlim zero_idct [M1] 0%nat M1 {["dct_type" := PInt 1]}).
  - reflexivity.
  - reflexivity.
Defined.

Lemma mfcc_to_audio_band_count_witness :
  ∃ magnitudes,
    arr_shape (arr_map (λ x, 1 * Rpower 10 (x / 10))%R
                 (constant_array float64 [2; 1] 0%R)) = [2; 1] ∧
    arr_shape (constant_array float64 [2; 3] 1%R) = [2; 4 / 2 + 1] ∧
    arr_shape magnitudes = [4 / 2 + 1; 1] ∧
    mfcc_to_audio ones_filters_mel zero_nnls real_power echo_hop_griffinlim
      zero_idct 0%nat (<["n_mels" := PInt 2]> {["n_fft" := PInt 4]}) [M1] =
      match echo_hop_griffinlim magnitudes
              (griffinlim_keywords_of
                 (<["n_mels" := PInt 2]> {["n_fft" := PInt 4]})) with
      | Ok y =>
          ([M1] ++ [constant_array float64 [2; 1] 0%R;
                    arr_map (λ x, 1 * Rpower 10 (x / 10))%R
                      (constant_array float64 [2; 1] 0%R);
                    constant_array float64 [2; 3] 1%R; magnitudes; y],
           Ok (length [M1] + 4)%nat)
      | Raise err =>
          ([M1] ++ [constant_array float64 [2; 1] 0%R;
                    arr_map (λ x, 1 * Rpower 10 (x / 10))%R
                      (constant_array float64 [2; 1] 0%R);
                    constant_array float64 [2; 3] 1%R; magnitudes],
           Raise err)
      end.
Proof.
  apply (mfcc_to_audio_band_count ones_filters_mel zero_nnls real_power
           echo_hop_griffinlim zero_idct [M1] 0%nat M1
           (<["n_mels" := PInt 2]> {["n_fft" := PInt 4]}) 1 1 2
           (constant_array float64 [2; 1] 0%R)
           (arr_map (λ x, 1 * Rpower 10 (x / 10))%R
              (constant_array float64 [2; 1] 0%R))
           4 (constant_array float64 [2; 3] 1%R)
           (constant_array float64 [3; 1] 0%R)).
  - exact zero_idct_shape.
  - exact ones_filters_mel_contract.
  - exact zero_nnls_shape.
  - reflexivity.
  - reflexivity.
  - reflexivity.
  - reflexivity.
  - reflexivity.
  - reflexivity.
  - reflexivity.
  - reflexivity.
  - reflexivity.
  - reflexivity.
  - vm_compute. lra.
Defined.

Lemma mel_to_stft_returns_iff_witness :
  (∃ h' l, mel_to_stft ones_filters_mel zero_nnls real_power 0%nat
             (<["power" := PFloat (-1)]> {["n_fft" := PInt 4]}) [M1]
           = (h', Ok l))
  ↔ py_divisor (param (<["power" := PFloat (-1)]> {["n_fft" := PInt 4]})
                  "power" (PFloat 2)).
Proof.
  apply (mel_to_stft_returns_iff ones_filters_mel zero_nnls real_power
           [M1] 0%nat M1 (<["power" := PFloat (-1)]> {["n_fft" := PInt 4]})
           1 [1] (constant_array float64 [1; 3] 1%R)
           (constant_array float64 [3; 1] 0%R)).
  - reflexivity.
  - reflexivity.
  - reflexivity.
  - reflexivity.
  - reflexivity.
  - reflexivity.
  - reflexivity.
Defined.

Lemma mfcc_to_audio_keyword_M_witness :
  mfcc_to_audio ones_filters_mel zero_nnls real_power echo_hop_griffinlim
    zero_idct 0%nat {["M" := PNone]} [M1]
  = ([M1] ++ [constant_array float64 [128; 1] 0%R;
              arr_map (λ x, 1 * Rpower 10 (x / 10))%R
                (constant_array float64 [128; 1] 0%R)],
     Raise TypeError).
Proof.
  apply (mfcc_to_audio_keyword_M ones_filters_mel zero_nnls real_power
           echo_hop_griffinlim zero_idct [M1] 0%nat M1 {["M" := PNone]}).
  - reflexivity.
  - exists PNone. reflexivity.
  - reflexivity.
  - reflexivity.
  - reflexivity.
Defined.

Lemma mel_to_stft_integer_power_witness :
  mel_to_stft ones_filters_mel zero_nnls real_power 0%nat
    (<["power" := PInt 2]> ∅) [M1]
  = mel_to_stft ones_filters_mel zero_nnls real_power 0%nat
      (<["power" := PFloat (IZR 2)]> ∅) [M1].
Proof.
  apply (mel_to_stft_integer_power ones_filters_mel zero_nnls real_power
           0%nat ∅ 2 [M1]).
  vm_compute. reflexivity.
Defined.
